(** * DailyIPTV: the playlist pipeline of [scripts/update_sources.py]

    A shallow embedding of the methods of [IPTVUpdater] that parse,
    deduplicate, filter, probe, validate and categorize channel records,
    followed by the properties the design document states about them.

    Python strings are sequences of Unicode code points; they are modelled
    as lists of integers.  Literals are written as in the source and decoded
    from the UTF-8 bytes of the literal. *)

From Stdlib Require Import ZArith Lia Bool Btauto Sorted.
From stdpp Require Import base list strings relations sorting.

Local Open Scope Z_scope.

(** ** Python strings *)

Module PyStr.

Definition pystr : Type := list Z.

Fixpoint bytes_of (s : string) : list Z :=
  match s with
  | EmptyString => []
  | String a s' => Z.of_N (Ascii.N_of_ascii a) :: bytes_of s'
  end.

(** Decoding of well-formed UTF-8 (one to four bytes per code point). *)
Fixpoint utf8_decode (bs : list Z) : pystr :=
  match bs with
  | [] => []
  | b0 :: r0 =>
    if b0 <? 0x80 then b0 :: utf8_decode r0 else
    match r0 with
    | [] => [b0]
    | b1 :: r1 =>
      if b0 <? 0xE0 then ((b0 - 0xC0) * 64 + (b1 - 0x80)) :: utf8_decode r1 else
      match r1 with
      | [] => [b0]
      | b2 :: r2 =>
        if b0 <? 0xF0
        then ((b0 - 0xE0) * 4096 + (b1 - 0x80) * 64 + (b2 - 0x80)) :: utf8_decode r2
        else
          match r2 with
          | [] => [b0]
          | b3 :: r3 =>
            ((b0 - 0xF0) * 262144 + (b1 - 0x80) * 4096 + (b2 - 0x80) * 64 + (b3 - 0x80))
              :: utf8_decode r3
          end
      end
    end
  end.

(** [u "..."] is the Python literal ['...']. *)
Definition u (s : string) : pystr := utf8_decode (bytes_of s).
#[global] Arguments u : simpl never.

Definition str_eqb (a b : pystr) : bool := bool_decide (a = b).

(** [s.startswith(p)] *)
Fixpoint startswith (s p : pystr) {struct p} : bool :=
  match p with
  | [] => true
  | a :: p' =>
    match s with
    | [] => false
    | b :: s' => (a =? b) && startswith s' p'
    end
  end.

(** [s.startswith((p1, p2, ...))] *)
Definition startswith_any (s : pystr) (ps : list pystr) : bool :=
  existsb (startswith s) ps.

(** [needle in hay] *)
Fixpoint py_in (needle hay : pystr) {struct hay} : bool :=
  startswith hay needle ||
  match hay with
  | [] => false
  | _ :: hay' => py_in needle hay'
  end.

(** [str.isspace] on one code point: the characters CPython's
    [Py_UNICODE_ISSPACE] accepts. *)
Definition isspace (c : Z) : bool :=
  ((9 <=? c) && (c <=? 13)) || ((28 <=? c) && (c <=? 32)) ||
  (c =? 0x85) || (c =? 0xA0) || (c =? 0x1680) ||
  ((0x2000 <=? c) && (c <=? 0x200A)) ||
  (c =? 0x2028) || (c =? 0x2029) || (c =? 0x202F) || (c =? 0x205F) ||
  (c =? 0x3000).

Fixpoint lstrip (s : pystr) : pystr :=
  match s with
  | [] => []
  | c :: s' => if isspace c then lstrip s' else s
  end.

Fixpoint rstrip (s : pystr) : pystr :=
  match s with
  | [] => []
  | c :: s' =>
    match rstrip s' with
    | [] => if isspace c then [] else [c]
    | t => c :: t
    end
  end.

(** [s.strip()] *)
Definition strip (s : pystr) : pystr := rstrip (lstrip s).

(** The line boundaries of [str.splitlines]. *)
Definition is_linebreak (c : Z) : bool :=
  ((10 <=? c) && (c <=? 13)) || ((0x1C <=? c) && (c <=? 0x1E)) ||
  (c =? 0x85) || (c =? 0x2028) || (c =? 0x2029).

(** [cur] holds the characters of the line being read. *)
Fixpoint splitlines_from (cur s : pystr) {struct s} : list pystr :=
  match s with
  | [] => match cur with [] => [] | _ => [cur] end
  | c :: s' =>
    if is_linebreak c then
      cur ::
      match s' with
      | c' :: s'' =>
        if (c =? 13) && (c' =? 10) then splitlines_from [] s''
        else splitlines_from [] s'
      | [] => splitlines_from [] s'
      end
    else splitlines_from (cur ++ [c]) s'
  end.

(** [s.splitlines()] *)
Definition splitlines (s : pystr) : list pystr := splitlines_from [] s.

(** [str(n)] for a non-negative integer: its decimal digits. *)
Fixpoint digits (fuel : nat) (n : Z) : pystr :=
  match fuel with
  | O => []
  | S fuel' =>
    if n <? 10 then [48 + n] else digits fuel' (n / 10) ++ [48 + n mod 10]
  end.

Definition str_of_nat (n : nat) : pystr :=
  digits (S n) (Z.of_nat n).

(** [sep.join(parts)] is not used by the pipeline; concatenation is [++]. *)

(** [str.lower] on an ASCII code point. *)
Definition ascii_lower (c : Z) : Z :=
  if (65 <=? c) && (c <=? 90) then c + 32 else c.

(** Code points on which [str.lower] is [ascii_lower]: ASCII, and the
    caseless CJK unified ideographs. *)
Definition plain (c : Z) : bool :=
  ((0 <=? c) && (c <? 128)) || ((0x4E00 <=? c) && (c <=? 0x9FFF)).

Definition ascii_upper (c : Z) : bool := (65 <=? c) && (c <=? 90).

(** [str.lower] follows the Unicode case tables, which are not part of the
    repository.  The development uses two facts about it: on text made of
    ASCII and CJK ideographs it lowers the ASCII letters and nothing else,
    and its result never holds an ASCII capital. *)
Class CaseTable := {
  lower : pystr -> pystr;
  lower_plain : forall s, forallb plain s = true -> lower s = map ascii_lower s;
  lower_no_upper : forall s, existsb ascii_upper (lower s) = false
}.

End PyStr.
Export PyStr.

(** ** Channel records

    The parser builds every record as a dictionary with the four keys
    [raw_extinf], [name], [url] and [source]; between a metadata line and its
    locator line the dictionary holds the first two keys only. *)

Record channel := Channel {
  raw_extinf : pystr;
  name : pystr;
  url : pystr;
  source : pystr
}.

Record pending := Pending {
  p_raw_extinf : pystr;
  p_name : pystr
}.

#[global] Instance channel_eq_dec : EqDecision channel.
Proof. solve_decision. Defined.

(** ** [parse_m3u] *)

Definition newline : Z := 10.
Definition comma : Z := 44.

(** [.*$] tried at the head of [s]: the greedy [.*] stops at the first
    newline, and [$] holds at the end of the text or before a newline that
    ends it.  The result is the text the group captures. *)
Fixpoint dotstar_eol (s : pystr) : option pystr :=
  match s with
  | [] => Some []
  | c :: s' =>
    if c =? newline then match s' with [] => Some [] | _ => None end
    else option_map (cons c) (dotstar_eol s')
  end.

(** [re.search] with the pattern of the source (a comma, the group [name]
    holding [.*], then [$]): the leftmost position where the pattern
    matches; the result is the group [name], [None] for no match. *)
Fixpoint re_search_name (line : pystr) : option pystr :=
  match line with
  | [] => None
  | c :: rest =>
    if c =? comma then
      match dotstar_eol rest with
      | Some g => Some g
      | None => re_search_name rest
      end
    else re_search_name rest
  end.

Definition transport_prefixes : list pystr :=
  [u "http://"; u "https://"; u "rtsp://"; u "rtmp://"].

(** The dictionary a line starting with [#EXTINF] opens. *)
Definition open_channel (i : nat) (line : pystr) : pending :=
  {| p_raw_extinf := line;
     p_name := match re_search_name line with
               | Some g => strip g
               | None => u "Unknown_" ++ str_of_nat i
               end |}.

(** The loop state: [channels] and [current_channel] ([None] is [{}]). *)
Definition parse_state : Type := list channel * option pending.

(** One iteration of the loop over [enumerate(lines)]. *)
Definition parse_step (source_url : pystr) (st : parse_state) (il : nat * pystr)
  : parse_state :=
  let line := strip il.2 in
  match line with
  | [] => st
  | _ =>
    if startswith line (u "#EXTINF") then (st.1, Some (open_channel il.1 line))
    else if startswith_any line transport_prefixes then
      match st.2 with
      | Some cur =>
        (st.1 ++ [{| raw_extinf := p_raw_extinf cur; name := p_name cur;
                     url := line; source := source_url |}], None)
      | None => st
      end
    else st
  end.

Fixpoint enumerate_from {A} (i : nat) (l : list A) : list (nat * A) :=
  match l with
  | [] => []
  | x :: l' => (i, x) :: enumerate_from (S i) l'
  end.

Definition parse_lines (source_url : pystr) (lines : list (nat * pystr))
  (st : parse_state) : parse_state :=
  fold_left (parse_step source_url) lines st.

Definition parse_m3u (content source_url : pystr) : list channel :=
  (parse_lines source_url (enumerate_from 0 (splitlines content)) ([], None)).1.

(** ** [generate_m3u_content] *)

(** A reading of the clock, and [strftime('%Y-%m-%d %H:%M:%S')]. *)
Record datetime := {
  year : nat; month : nat; day : nat; hour : nat; minute : nat; second : nat
}.

Definition zero_pad (width : nat) (n : nat) : pystr :=
  let d := str_of_nat n in
  replicate (width - length d)%nat 48 ++ d.

Definition strftime (t : datetime) : pystr :=
  zero_pad 4 (year t) ++ u "-" ++ zero_pad 2 (month t) ++ u "-" ++
  zero_pad 2 (day t) ++ u " " ++ zero_pad 2 (hour t) ++ u ":" ++
  zero_pad 2 (minute t) ++ u ":" ++ zero_pad 2 (second t).

Definition header (utcnow now : datetime) (title : pystr) (total : nat) : pystr :=
  u "#EXTM3U" ++ [newline] ++
  u "#EXTENC: UTF-8" ++ [newline] ++
  u "# Generated: " ++ strftime utcnow ++ u " UTC" ++ [newline] ++
  u "# Updated: " ++ strftime now ++ [newline] ++
  u "# Title: " ++ title ++ [newline] ++
  u "# Total Channels: " ++ str_of_nat total ++ [newline] ++
  u "# For personal testing only." ++ [newline] ++
  [newline].

Definition emit_channel (content : pystr) (c : channel) : pystr :=
  content ++ (raw_extinf c ++ [newline] ++ url c ++ [newline]).

Definition generate_m3u_content (utcnow now : datetime)
  (channels : list channel) (title : pystr) : pystr :=
  fold_left emit_channel channels (header utcnow now title (length channels)).

(** ** Deduplication in [run]

    [unique_channels] is a dictionary keyed by locator; a Python dictionary
    keeps its keys in insertion order, so it is an association list that
    grows at the end. *)

Definition dict_has (k : pystr) (d : list (pystr * channel)) : bool :=
  existsb (fun kv => str_eqb kv.1 k) d.

Definition unique_step (d : list (pystr * channel)) (c : channel)
  : list (pystr * channel) :=
  if dict_has (url c) d then d else d ++ [(url c, c)].

Definition unique_channels (all_channels : list channel) : list (pystr * channel) :=
  fold_left unique_step all_channels [].

(** [list(unique_channels.values())] *)
Definition unique_channels_list (all_channels : list channel) : list channel :=
  map snd (unique_channels all_channels).

(** ** [filter_quality_channels] and [categorize_channel] *)

Section Keywords.
Context `{CaseTable}.

Definition bad_names : list pystr :=
  [u "test"; u "example"; u "demo"; u "无效"; u "测试"].

Definition good_keywords : list pystr :=
  [u "cctv"; u "央视"; u "卫视"; u "湖南"; u "浙江"; u "江苏"; u "北京"; u "上海";
   u "广东"; u "viutv"; u "无线新闻"; u "HOY"; u "NOW"; u "香港"; u "凤凰";
   u "翡翠"; u "明珠"; u "tvb"; u "RTHK"].

(** [any(k in text for k in keywords)] *)
Definition any_in (keywords : list pystr) (text : pystr) : bool :=
  existsb (fun k => py_in k text) keywords.

(** One iteration of the loop; both the branch of the good keywords and the
    fall-through append the channel. *)
Definition quality_step (quality_channels : list channel) (c : channel)
  : list channel :=
  let name := lower (name c) in
  if any_in bad_names name then quality_channels
  else if any_in good_keywords name then quality_channels ++ [c]
  else quality_channels ++ [c].

Definition filter_quality_channels (channels : list channel) : list channel :=
  fold_left quality_step channels [].

Definition cctv_keywords : list pystr := [u "cctv"; u "央视"; u "中央"].
Definition satellite_keywords : list pystr :=
  [u "卫视"; u "凤凰"; u "湖南"; u "浙江"; u "江苏"; u "北京"].
Definition local_keywords : list pystr :=
  [u "都市"; u "新闻"; u "民生"; u "公共"; u "教育"; u "少儿"; u "体育"].
Definition hongkong_keywords : list pystr :=
  [u "tvb"; u "viutv"; u "无线新闻"; u "HOY"; u "NOW"; u "凤凰"; u "翡翠";
   u "明珠"; u "RTHK"].

Definition categorize_channel (channel_name : pystr) : pystr :=
  let name_lower := lower channel_name in
  if any_in cctv_keywords name_lower then u "cctv"
  else if any_in satellite_keywords name_lower then u "satellite"
  else if any_in local_keywords name_lower then u "local"
  else if any_in hongkong_keywords name_lower then u "hongkong"
  else u "other".

End Keywords.

(** ** [is_url_accessible] *)

(** What [urlparse] gives for a locator: the two attributes the prober
    reads, or the [ValueError] it raises, with its text. *)
Inductive parse_result :=
  | Parsed (scheme netloc : pystr)
  | ParseError (description : pystr).

(** The call [requests.head(url, timeout=..., allow_redirects=True,
    headers={'User-Agent': ...})]. *)
Record request := {
  req_url : pystr;
  req_timeout : Z;
  req_allow_redirects : bool;
  req_user_agent : pystr
}.

(** How the call ends: a response with its status code, or an exception,
    told apart the way the handlers are tried: an instance of
    [requests.exceptions.Timeout], else an instance of
    [requests.exceptions.ConnectionError], else any other [Exception], with
    [str(e)]. *)
Inductive response :=
  | Status (status_code : Z)
  | RaiseTimeout
  | RaiseConnectionError
  | RaiseException (description : pystr).

(** [str(n)] for an integer. *)
Definition str_of_Z (n : Z) : pystr :=
  if n <? 0 then u "-" ++ digits (S (Z.to_nat (- n))) (- n)
  else digits (S (Z.to_nat n)) n.

Definition trusted_domains : list pystr :=
  [u "youtube.com"; u "youtu.be"; u "twitch.tv"].

Definition ok_status : list Z := [200; 302; 301].

Definition is_empty (s : pystr) : bool :=
  match s with [] => true | _ => false end.

Section Prober.
(** [urlparse] belongs to the Python library, and the answer of the network
    to the one request to the environment. *)
Variable urlparse : pystr -> parse_result.
Variable head_request : request -> response.

(** The result is the pair the method returns, with the requests it made. *)
Definition is_url_accessible (c : channel) (timeout : Z)
  : (bool * pystr) * list request :=
  let url := url c in
  match urlparse url with
  | ParseError e => ((false, u "异常: " ++ e), [])
  | Parsed scheme netloc =>
    if is_empty scheme || is_empty netloc then ((false, u "无效的URL格式"), [])
    else if existsb (fun domain => py_in domain url) trusted_domains
    then ((true, u "流媒体链接（跳过验证）"), [])
    else
      let req := {| req_url := url; req_timeout := timeout;
                    req_allow_redirects := true;
                    req_user_agent := u "Mozilla/5.0" |} in
      match head_request req with
      | Status code =>
        if existsb (Z.eqb code) ok_status
        then ((true, u "状态码: " ++ str_of_Z code), [req])
        else ((false, u "状态码: " ++ str_of_Z code), [req])
      | RaiseTimeout => ((false, u "连接超时"), [req])
      | RaiseConnectionError => ((false, u "连接错误"), [req])
      | RaiseException e => ((false, u "异常: " ++ e), [req])
      end
  end.

End Prober.

(** A model of [urlparse] on locators of the shape [scheme://netloc...]:
    the scheme is the text before the first colon when it is made of scheme
    characters and starts with a letter; the host part runs from the two
    slashes to the first of [/], [?] and [#]; square brackets that do not
    pair up raise [ValueError]. *)
Fixpoint split_first (sep : Z) (s : pystr) : option (pystr * pystr) :=
  match s with
  | [] => None
  | c :: s' =>
    if c =? sep then Some ([], s')
    else match split_first sep s' with
         | Some (a, b) => Some (c :: a, b)
         | None => None
         end
  end.

Definition is_alpha (c : Z) : bool :=
  ((65 <=? c) && (c <=? 90)) || ((97 <=? c) && (c <=? 122)).

Definition scheme_char (c : Z) : bool :=
  is_alpha c || ((48 <=? c) && (c <=? 57)) || (c =? 43) || (c =? 45) || (c =? 46).

Definition netloc_end (c : Z) : bool := (c =? 47) || (c =? 63) || (c =? 35).

Fixpoint take_until (stop : Z -> bool) (s : pystr) : pystr :=
  match s with
  | [] => []
  | c :: s' => if stop c then [] else c :: take_until stop s'
  end.

Definition urlparse_model (url : pystr) : parse_result :=
  let '(scheme, rest) :=
    match split_first 58 url with
    | Some (c :: pre, post) =>
      if is_alpha c && forallb scheme_char pre
      then (map ascii_lower (c :: pre), post) else ([], url)
    | _ => ([], url)
    end in
  if startswith rest (u "//") then
    let netloc := take_until netloc_end (drop 2 rest) in
    if xorb (existsb (Z.eqb 91) netloc) (existsb (Z.eqb 93) netloc)
    then ParseError (u "Invalid IPv6 URL")
    else Parsed scheme netloc
  else Parsed scheme [].

(** ** [validate_channels_parallel] *)

(** What [future.result()] does: return the pair of the prober, or raise. *)
Inductive future_result :=
  | Returned (is_valid : bool) (message : pystr)
  | Raised (description : pystr).

(** An entry of [validation_results]. *)
Record outcome := {
  o_channel : pystr;
  o_url : pystr;
  o_valid : bool;
  o_message : pystr
}.

(** The worker pool.  A future is named by the position of its channel in
    [channels], the order of submission.  Tasks leave the queue in that
    order while fewer than [W] run, and any running task may finish next. *)
Record pool := {
  queued : list nat;
  running : list nat;
  finished : list nat
}.

Inductive pool_step (W : nat) : pool -> pool -> Prop :=
  | pool_start t q r d :
      (length r < W)%nat ->
      pool_step W {| queued := t :: q; running := r; finished := d |}
                  {| queued := q; running := r ++ [t]; finished := d |}
  | pool_finish t q r1 r2 d :
      pool_step W {| queued := q; running := r1 ++ t :: r2; finished := d |}
                  {| queued := q; running := r1 ++ r2; finished := d ++ [t] |}.

(** A run of the pool over [n] submitted tasks that ends with every task
    finished, in the order [order]. *)
Definition pool_run (W n : nat) (order : list nat) : Prop :=
  rtc (pool_step W)
      {| queued := seq 0 n; running := []; finished := [] |}
      {| queued := []; running := []; finished := order |}.

Section Validator.
Variable channels : list channel.
(** The result of each future. *)
Variable result : nat -> future_result.

(** The body of the loop over [as_completed(future_to_channel)], for the
    future the iteration yields.  The state is [valid_channels] and
    [validation_results]. *)
Definition collect_step (st : list channel * list outcome) (future : nat)
  : list channel * list outcome :=
  match channels !! future with
  | None => st
  | Some c =>
    match result future with
    | Returned is_valid message =>
      ((if is_valid then st.1 ++ [c] else st.1),
       st.2 ++ [{| o_channel := name c; o_url := url c;
                   o_valid := is_valid; o_message := message |}])
    | Raised e =>
      (st.1,
       st.2 ++ [{| o_channel := name c; o_url := url c;
                   o_valid := false; o_message := u "验证异常: " ++ e |}])
    end
  end.

(** [order] is the order in which [as_completed] yields the futures.
    [ThreadPoolExecutor] raises [ValueError] for a width that is not
    positive: the result is [None] then. *)
Definition validate_channels_parallel (max_workers : nat) (order : list nat)
  : option (list channel * list outcome) :=
  match max_workers with
  | O => None
  | S _ => Some (fold_left collect_step order ([], []))
  end.

End Validator.

(** The futures of [executor.submit(self.is_url_accessible, channel)]: the
    prober runs with its default timeout of 3 seconds, against what the
    network answers to that probe. *)
Definition probe_results (urlparse : pystr -> parse_result)
  (network : nat -> request -> response) (channels : list channel)
  (i : nat) : future_result :=
  match channels !! i with
  | Some c =>
    let r := (is_url_accessible urlparse (network i) c 3).1 in
    Returned r.1 r.2
  | None => Raised []
  end.

(** ** The pipeline of [run], from the parsed channels to the buckets *)

Definition buckets : Type := list (pystr * list channel).

Definition empty_buckets : buckets :=
  [(u "cctv", []); (u "satellite", []); (u "local", []); (u "hongkong", []);
   (u "other", [])].

(** [categorized_channels[category].append(channel)]; [None] is the
    [KeyError] of a label that is not a key. *)
Fixpoint bucket_append (category : pystr) (c : channel) (b : buckets)
  : option buckets :=
  match b with
  | [] => None
  | (k, l) :: b' =>
    if str_eqb k category then Some ((k, l ++ [c]) :: b')
    else option_map (cons (k, l)) (bucket_append category c b')
  end.

Record run_state := {
  unique_list : list channel;
  quality_channels : list channel;
  valid_channels : list channel;
  validation_results : list outcome;
  categorized_channels : buckets
}.

Section Run.
Context `{CaseTable}.
Variable urlparse : pystr -> parse_result.
Variable network : nat -> request -> response.

Definition categorize_all (valid : list channel) : option buckets :=
  fold_left
    (fun acc c =>
       match acc with
       | Some b => bucket_append (categorize_channel (name c)) c b
       | None => None
       end)
    valid (Some empty_buckets).

(** [order] is the order of completion of the probes. *)
Definition run (all_channels : list channel) (order : list nat)
  : option run_state :=
  let unique := unique_channels_list all_channels in
  let quality := filter_quality_channels unique in
  match
    (match quality with
     | [] => Some ([], [])
     | _ => validate_channels_parallel quality
              (probe_results urlparse network quality) 5 order
     end)
  with
  | None => None
  | Some (valid, results) =>
    match categorize_all valid with
    | None => None
    | Some cats =>
      Some {| unique_list := unique; quality_channels := quality;
              valid_channels := valid; validation_results := results;
              categorized_channels := cats |}
    end
  end.

End Run.

(** ** Reference definitions

    The functions below are not part of the program: they say, in the words
    of the design document, what a stage is to compute, and the theorems
    compare the program with them. *)

Definition has_url (k : pystr) (c : channel) : bool := str_eqb (url c) k.

(** A dictionary whose keys are the locators of its values. *)
Definition keyed (d : list (pystr * channel)) : Prop :=
  Forall (fun kv => kv.1 = url kv.2) d.

(** Deduplication by locator: a record stays, and every later record with
    its locator goes. *)
Fixpoint first_seen (l : list channel) : list channel :=
  match l with
  | [] => []
  | c :: l' => c :: List.filter (fun d => negb (has_url (url c) d)) (first_seen l')
  end.

(** Case-insensitive containment of a keyword in a text. *)
Section KeywordsReference.
Context `{CaseTable}.

Definition contains_ci (kw text : pystr) : bool := py_in (lower kw) (lower text).

Definition matches_set (keywords : list pystr) (text : pystr) : bool :=
  existsb (fun kw => contains_ci kw text) keywords.

(** A record the quality filter is to drop. *)
Definition excluded (c : channel) : bool := matches_set bad_names (name c).

(** The categorizer of the design document: the label of the first rule
    set, in priority order, with a case-insensitive substring match. *)
Definition categorize_spec (channel_name : pystr) : pystr :=
  if matches_set cctv_keywords channel_name then u "cctv"
  else if matches_set satellite_keywords channel_name then u "satellite"
  else if matches_set local_keywords channel_name then u "local"
  else if matches_set hongkong_keywords channel_name then u "hongkong"
  else u "other".

End KeywordsReference.

(** The keywords of [hongkong_keywords], by the case they are written in. *)
Definition hongkong_lower : list pystr :=
  [u "tvb"; u "viutv"; u "无线新闻"; u "凤凰"; u "翡翠"; u "明珠"].
Definition hongkong_upper : list pystr := [u "HOY"; u "NOW"; u "RTHK"].

Definition disjoint_sets (a b : list pystr) : Prop :=
  forall k, In k a -> In k b -> False.

(** The parser.  A line is a metadata line or a transport line by the
    prefix of its stripped text; every other line, a blank one too, is
    neither. *)
Definition is_metadata (raw : pystr) : bool := startswith (strip raw) (u "#EXTINF").
Definition is_transport (raw : pystr) : bool :=
  startswith_any (strip raw) transport_prefixes.

(** The metadata line [i] is pending after the first [n] lines: no metadata
    or transport line stands between it and line [n]. *)
Definition pending_at (lines : list pystr) (n i : nat) : Prop :=
  (i < n)%nat /\ is_metadata (nth i lines []) = true /\
  forall k, (i < k < n)%nat ->
    is_metadata (nth k lines []) = false /\ is_transport (nth k lines []) = false.

(** A complete pair: a transport line [j] and the metadata line [i] pending
    when it is read. *)
Definition complete_pair (lines : list pystr) (i j : nat) : Prop :=
  pending_at lines j i /\ is_transport (nth j lines []) = true.

(** The record of the pair of lines [(i, j)]. *)
Definition channel_of (lines : list pystr) (source_url : pystr) (p : nat * nat)
  : channel :=
  let m := strip (nth p.1 lines []) in
  {| raw_extinf := m; name := p_name (open_channel p.1 m);
     url := strip (nth p.2 lines []); source := source_url |}.
#[global] Arguments open_channel : simpl never.

(** The pair [p] ends before the pair [q] starts. *)
Definition before (p q : nat * nat) : Prop := (p.2 < q.1)%nat.


(** The state of the loop after the first [n] lines. *)
Definition parse_inv (lines : list pystr) (source_url : pystr) (n : nat)
  (st : parse_state) : Prop :=
  (exists pairs,
     st.1 = map (channel_of lines source_url) pairs /\
     (forall i j, In (i, j) pairs <-> complete_pair lines i j /\ (j < n)%nat) /\
     StronglySorted before pairs) /\
  match st.2 with
  | Some p => exists i, pending_at lines n i /\ p = open_channel i (strip (nth i lines []))
  | None => forall i, ~ pending_at lines n i
  end.

(** The display name of the metadata line [line], line [i] of the text:
    what follows its first comma. *)
Definition name_after_first_comma (i : nat) (line : pystr) : pystr :=
  match split_first comma line with
  | Some (_, rest) => strip rest
  | None => u "Unknown_" ++ str_of_nat i
  end.

(** The same with the last comma, as the design document has it (for a
    line with no escaped comma). *)
Fixpoint split_last (sep : Z) (s : pystr) : option (pystr * pystr) :=
  match s with
  | [] => None
  | c :: s' =>
    match split_last sep s' with
    | Some (a, b) => Some (c :: a, b)
    | None => if c =? sep then Some ([], s') else None
    end
  end.

Definition name_after_last_comma (i : nat) (line : pystr) : pystr :=
  match split_last comma line with
  | Some (_, rest) => strip rest
  | None => u "Unknown_" ++ str_of_nat i
  end.

(** A text with no line boundary in it. *)
Definition no_break (s : pystr) : Prop := Forall (fun c => is_linebreak c = false) s.


(** Two playlists for the examples. *)
Definition two_metadata_lines : pystr :=
  u "#EXTINF:-1,First" ++ [newline] ++ u "#EXTINF:-1,Second" ++ [newline] ++
  u "http://a/1" ++ [newline].

Definition names_with_commas : pystr :=
  u "#EXTINF:-1,News, Sports" ++ [newline] ++ u "http://a/1" ++ [newline] ++
  u "#EXTINF:-1," ++ [newline] ++ u "http://a/2" ++ [newline].

(** The prober. *)
(** The one request of the prober for the channel [c]. *)
Definition head_of (c : channel) (timeout : Z) : request :=
  {| req_url := url c; req_timeout := timeout; req_allow_redirects := true;
     req_user_agent := u "Mozilla/5.0" |}.

(** The text holds one of the platform domains somewhere. *)
Definition contains_trusted (text : pystr) : bool :=
  existsb (fun domain => py_in domain text) trusted_domains.

(** A locator with a scheme and a host. *)
Definition well_formed (scheme netloc : pystr) : Prop := scheme <> [] /\ netloc <> [].

(** A network that answers 404, and two locators of a host that is not
    a streaming platform; the path of the first names one. *)
Definition example_404 (_ : request) : response := Status 404.
Definition path_names_platform : channel :=
  Channel (u "#EXTINF:-1,Live") (u "Live") (u "http://example.org/youtube.com/live") (u "s").
Definition plain_locator : channel :=
  Channel (u "#EXTINF:-1,Live") (u "Live") (u "http://example.org/live.m3u8") (u "s").


(** The validator. *)
(** The outcome recorded for the channel [c] when its future gives [r]. *)
Definition outcome_of (c : channel) (r : future_result) : outcome :=
  match r with
  | Returned is_valid message =>
    {| o_channel := name c; o_url := url c; o_valid := is_valid; o_message := message |}
  | Raised e =>
    {| o_channel := name c; o_url := url c; o_valid := false;
       o_message := u "验证异常: " ++ e |}
  end.

(** The future returned a pair whose first component is [True]. *)
Definition judged_valid (r : future_result) : bool :=
  match r with Returned true _ => true | _ => false end.

(** What identifies the record of an outcome, and of a channel. *)
Definition outcome_key (o : outcome) : pystr * pystr := (o_channel o, o_url o).
Definition channel_key (c : channel) : pystr * pystr := (name c, url c).

Definition no_channel : channel := Channel [] [] [] [].

(** The valid channels and the outcomes of a run whose futures are yielded
    in the order [order]: each future contributes the outcome of its own
    result, whatever the others do. *)
Definition valid_of (channels : list channel) (result : nat -> future_result)
  (order : list nat) : list channel :=
  map (fun i => nth i channels no_channel)
    (List.filter (fun i => judged_valid (result i)) order).

Definition outcomes_of (channels : list channel) (result : nat -> future_result)
  (order : list nat) : list outcome :=
  map (fun i => outcome_of (nth i channels no_channel) (result i)) order.

(** The tasks of a pool, wherever they are. *)
Definition pool_content (p : pool) : list nat := queued p ++ running p ++ finished p.

(** Two channels; the probe of the first one raises. *)
Definition two_channels : list channel :=
  [Channel (u "#EXTINF:-1,A") (u "A") (u "http://a/1") (u "s");
   Channel (u "#EXTINF:-1,B") (u "B") (u "http://b/2") (u "s")].
Definition first_raises (i : nat) : future_result :=
  match i with O => Raised (u "boom") | _ => Returned true (u "ok") end.


(** The buckets. *)
(** The five categories, in the order of the dictionary of [run]. *)
Definition labels : list pystr :=
  [u "cctv"; u "satellite"; u "local"; u "hongkong"; u "other"].

Section BucketsReference.
Context `{CaseTable}.

Definition in_category (label : pystr) (c : channel) : bool :=
  str_eqb (categorize_channel (name c)) label.

(** Every label with the valid records of its category, in their order. *)
Definition buckets_of (valid : list channel) : buckets :=
  map (fun label => (label, List.filter (in_category label) valid)) labels.

End BucketsReference.

Definition bucket_sizes (b : buckets) : list nat := map (fun kv => length kv.2) b.

(** Four parsed records: a duplicate locator and a name the filter
    drops; and a network that answers 200 to every probe. *)
Definition three_channels : list channel :=
  [Channel (u "#EXTINF:-1,CCTV-1") (u "CCTV-1") (u "http://a/1") (u "s");
   Channel (u "#EXTINF:-1,Demo") (u "Demo") (u "http://a/2") (u "s");
   Channel (u "#EXTINF:-1,TVB") (u "TVB") (u "http://a/3") (u "s");
   Channel (u "#EXTINF:-1,CCTV-1 again") (u "CCTV-1 again") (u "http://a/1") (u "s")].
Definition answers_200 (_ : nat) (_ : request) : response := Status 200.


(** The round trip through the emitter. *)
(** What re-parsing gives for the records [records] when the metadata line of
    the first one is line [k] of the emitted text. *)
Fixpoint reparsed_from (k : nat) (source_url : pystr) (records : list channel)
  : list channel :=
  match records with
  | [] => []
  | c :: rest =>
    {| raw_extinf := raw_extinf c;
       name := name_after_first_comma k (raw_extinf c);
       url := url c; source := source_url |}
    :: reparsed_from (S (S k)) source_url rest
  end.

(** A record as the parser builds it. *)
Definition parsed_record (c : channel) : Prop :=
  no_break (raw_extinf c) /\ strip (raw_extinf c) = raw_extinf c /\
  startswith (raw_extinf c) (u "#EXTINF") = true /\
  no_break (url c) /\ strip (url c) = url c /\
  startswith_any (url c) transport_prefixes = true /\
  exists i, name c = name_after_first_comma i (raw_extinf c).

(** The lines of the records in the emitted text. *)
Definition record_lines (records : list channel) : list pystr :=
  flat_map (fun c => [raw_extinf c; url c]) records.

(** The lines of the header. *)
Definition header_lines (utcnow now : datetime) (title : pystr) (total : nat)
  : list pystr :=
  [u "#EXTM3U"; u "#EXTENC: UTF-8";
   u "# Generated: " ++ strftime utcnow ++ u " UTC";
   u "# Updated: " ++ strftime now;
   u "# Title: " ++ title;
   u "# Total Channels: " ++ str_of_nat total;
   u "# For personal testing only."; []].

(** A reading of the clock, a playlist whose metadata line has no comma,
    and a title that holds line breaks. *)
Definition some_time : datetime :=
  {| year := 2024; month := 5; day := 17; hour := 8; minute := 30; second := 0 |}.

Definition no_comma_playlist : pystr :=
  u "#EXTINF:-1" ++ [newline] ++ u "http://a/1" ++ [newline].

Definition injecting_title : pystr :=
  u "x" ++ [newline] ++ u "#EXTINF:-1,Injected" ++ [newline] ++ u "http://evil/".

(** The record [c'] has the locator and the metadata line of [c], and its
    name when the metadata line has a comma. *)
Definition same_fields (c c' : channel) : Prop :=
  url c' = url c /\ raw_extinf c' = raw_extinf c /\
  (In comma (raw_extinf c) -> name c' = name c).


(** ** Further definitions

    The loops of [run] over the sources, and what the later theorems need
    to state. *)

(** The keywords of the hongkong rule that can decide a label: the ones in
    capitals never occur in a lowered name, and a name with 凤凰 is taken by
    the satellite rule before. *)
Definition hongkong_effective : list pystr :=
  [u "tvb"; u "viutv"; u "无线新闻"; u "翡翠"; u "明珠"].

(** The record has the locator of some record of [l]. *)
Definition url_among (l : list channel) (c : channel) : bool :=
  existsb (has_url (url c)) l.

(** 1 while a metadata line is pending, 0 otherwise. *)
Definition pending_count (cur : option pending) : nat :=
  match cur with Some _ => 1 | None => 0 end.

(** The answer of the prober for the channel [c], probe [i], as an outcome. *)
Definition probed_outcome (urlparse : pystr -> parse_result)
  (network : nat -> request -> response) (i : nat) (c : channel) : outcome :=
  let r := (is_url_accessible urlparse (network i) c 3).1 in
  {| o_channel := name c; o_url := url c; o_valid := r.1; o_message := r.2 |}.

(** ** [fetch_source] and the loops of [run] over the sources *)

(** How [self.session.get(url, timeout=timeout)] ends: a response with its
    status code and text, or an exception. *)
Inductive get_result :=
  | GetResponse (status_code : Z) (text : pystr)
  | GetRaises (description : pystr).

(** The text of a response with status 200, and [None] for any other status
    and for an exception. *)
Definition fetch_source (get : pystr -> Z -> get_result) (url : pystr) (timeout : Z)
  : option pystr :=
  match get url timeout with
  | GetResponse status_code text => if status_code =? 200 then Some text else None
  | GetRaises _ => None
  end.

(** The configuration [load_sources] returns, with its two lists. *)
Record sources_config := {
  sources : list pystr;
  backup_sources : list pystr
}.

(** The state of the loops: [all_channels], [successful_sources], and the
    locators fetched so far, in order. *)
Record gather_state := {
  all_channels : list channel;
  successful_sources : nat;
  fetched : list pystr
}.

Section Gather.
(** What the session answers to the request number [k] of the run. *)
Variable session : nat -> pystr -> Z -> get_result.

(** One iteration of either loop; [if content:] is false for [None] and for
    the empty text. *)
Definition gather_step (st : gather_state) (source_url : pystr) : gather_state :=
  match fetch_source (session (length (fetched st))) source_url 15 with
  | Some (c :: text) =>
    {| all_channels := all_channels st ++ parse_m3u (c :: text) source_url;
       successful_sources := S (successful_sources st);
       fetched := fetched st ++ [source_url] |}
  | _ =>
    {| all_channels := all_channels st;
       successful_sources := successful_sources st;
       fetched := fetched st ++ [source_url] |}
  end.

(** The loop over the primary sources. *)
Definition gather_primary (cfg : sources_config) : gather_state :=
  fold_left gather_step (sources cfg)
    {| all_channels := []; successful_sources := 0; fetched := [] |}.

(** Both loops: the backup sources are tried when no primary source
    succeeded and the list of backup sources is not empty. *)
Definition gather_sources (cfg : sources_config) : gather_state :=
  let st := gather_primary cfg in
  if (successful_sources st =? 0)%nat
     && match backup_sources cfg with [] => false | _ => true end
  then fold_left gather_step (backup_sources cfg) st
  else st.

End Gather.
(** What both loops keep true of their state. *)
Definition gathered (st : gather_state) : Prop :=
  Forall (fun c => In (source c) (fetched st) /\ parsed_record c) (all_channels st) /\
  (successful_sources st = 0%nat -> all_channels st = []) /\
  (successful_sources st <= length (fetched st))%nat.


(** A session whose every request fails with status 404, a configuration,
    and the playlist of the examples as parsed records. *)
Definition session_404 (_ : nat) (_ : pystr) (_ : Z) : get_result :=
  GetResponse 404 (u "not found").

Definition example_config : sources_config :=
  {| sources := [u "https://a.example/1.m3u"; u "https://b.example/2.m3u"];
     backup_sources := [u "https://c.example/3.m3u"] |}.

Definition parsed_example : list channel := parse_m3u names_with_commas (u "s").

(** The lines of a record hold no line boundary. *)
Definition record_no_break (c : channel) : Prop :=
  no_break (raw_extinf c) /\ no_break (url c).

(** The state of [run] when nothing was parsed. *)
Definition empty_run_state : run_state :=
  {| unique_list := []; quality_channels := []; valid_channels := [];
     validation_results := []; categorized_channels := empty_buckets |}.

(** * Properties *)

(** ** Lists *)

Lemma filter_twice {A} (f g : A -> bool) l :
  List.filter f (List.filter g l) = List.filter (fun x => g x && f x) l.
Proof.
  induction l as [|x l IH]; simpl; [done|].
  destruct (g x); simpl; [destruct (f x)|]; by rewrite IH.
Qed.

Lemma filter_sublist {A} (f : A -> bool) l : List.filter f l `sublist_of` l.
Proof.
  induction l as [|x l IH]; simpl; [done|].
  destruct (f x); by constructor.
Qed.

Lemma find_filter_weaker {A} (p q : A -> bool) l :
  (forall x, p x = true -> q x = true) ->
  find p (List.filter q l) = find p l.
Proof.
  intros Hpq. induction l as [|x l IH]; simpl; [done|].
  destruct (q x) eqn:Hq; simpl.
  - by rewrite IH.
  - destruct (p x) eqn:Hp; [|done]. apply Hpq in Hp. congruence.
Qed.

(** ** Strings *)

Lemma ascii_lower_no_upper s : existsb ascii_upper (map ascii_lower s) = false.
Proof.
  induction s as [|c s IH]; simpl; [done|]. rewrite IH, orb_false_r.
  unfold ascii_upper, ascii_lower.
  destruct ((65 <=? c) && (c <=? 90)) eqn:E; [|done].
  apply andb_true_iff in E as [E1 E2]. apply Z.leb_le in E1, E2.
  apply andb_false_iff. right. apply Z.leb_gt. lia.
Qed.

(** The case table restricted to ASCII letters; it is [str.lower] on every
    text of ASCII and CJK characters. *)
#[global] Instance ascii_case_table : CaseTable :=
  {| lower := map ascii_lower;
     lower_plain := fun s _ => eq_refl;
     lower_no_upper := ascii_lower_no_upper |}.

Lemma startswith_app s p : startswith s p = true -> exists r, s = p ++ r.
Proof.
  revert s. induction p as [|a p IH]; intros s Hs; simpl in *.
  - by exists s.
  - destruct s as [|b s]; [done|]. apply andb_true_iff in Hs as [Hab Hs].
    apply Z.eqb_eq in Hab. subst b. destruct (IH _ Hs) as [r ->]. by exists r.
Qed.

Lemma startswith_app_same p r : startswith (p ++ r) p = true.
Proof. induction p as [|a p IH]; simpl; [done|]. by rewrite Z.eqb_refl. Qed.

Lemma py_in_here needle hay : startswith hay needle = true -> py_in needle hay = true.
Proof. intros Hs. destruct hay; simpl; by rewrite Hs. Qed.

(** [py_in] is containment as a contiguous run of characters. *)
Lemma py_in_spec needle hay :
  py_in needle hay = true <-> exists l r, hay = l ++ needle ++ r.
Proof.
  split.
  - induction hay as [|c hay IH]; simpl; intros Hin.
    + rewrite orb_false_r in Hin. apply startswith_app in Hin as [r ->].
      by exists [], r.
    + apply orb_true_iff in Hin as [Hin|Hin].
      * apply startswith_app in Hin as [r ->]. by exists [], r.
      * destruct (IH Hin) as (l & r & ->). by exists (c :: l), r.
  - intros (l & r & ->). induction l as [|c l IH].
    + apply py_in_here. exact (startswith_app_same needle r).
    + simpl. simpl in IH. by rewrite IH, orb_true_r.
Qed.

Lemma py_in_upper_false kw t :
  existsb ascii_upper kw = true -> existsb ascii_upper t = false -> py_in kw t = false.
Proof.
  intros Hkw Ht. apply not_true_iff_false. intros Hin.
  apply py_in_spec in Hin as (l & r & ->).
  rewrite !existsb_app, Hkw in Ht. by rewrite orb_true_r in Ht.
Qed.

(** ** Deduplication *)

Lemma str_eqb_eq a b : str_eqb a b = true <-> a = b.
Proof. unfold str_eqb. apply bool_decide_eq_true. Qed.

Lemma dict_has_app k d e : dict_has k (d ++ e) = dict_has k d || dict_has k e.
Proof. apply existsb_app. Qed.

(** The dictionary after the loop, started from any dictionary [d] whose
    keys are the locators of its values. *)
Lemma unique_fold l : forall d,
  keyed d ->
  map snd (fold_left unique_step l d)
  = map snd d ++ List.filter (fun c => negb (dict_has (url c) d)) (first_seen l).
Proof.
  induction l as [|c l IH]; intros d Hd; simpl.
  - by rewrite app_nil_r.
  - unfold unique_step at 2. destruct (dict_has (url c) d) eqn:Hc; simpl.
    + rewrite IH by done. f_equal. rewrite filter_twice.
      apply filter_ext. intros x. unfold has_url.
      destruct (str_eqb (url x) (url c)) eqn:E; simpl; [|done].
      apply str_eqb_eq in E. by rewrite E, Hc.
    + rewrite IH.
      2:{ apply Forall_app. split; [done|]. by constructor. }
      rewrite map_app. simpl. rewrite <- app_assoc. simpl. do 2 f_equal.
      rewrite filter_twice. apply filter_ext. intros x.
      rewrite dict_has_app. simpl. unfold has_url, str_eqb.
      rewrite orb_false_r, negb_orb.
      rewrite (bool_decide_ext (url c = url x) (url x = url c)) by done.
      apply andb_comm.
Qed.

Lemma unique_channels_list_first_seen l : unique_channels_list l = first_seen l.
Proof.
  unfold unique_channels_list, unique_channels.
  rewrite unique_fold by constructor. simpl.
  induction (first_seen l); simpl; congruence.
Qed.

Lemma first_seen_sublist l : first_seen l `sublist_of` l.
Proof.
  induction l as [|c l IH]; simpl; [done|].
  constructor. etrans; [apply filter_sublist | done].
Qed.

Lemma first_seen_find k l :
  find (has_url k) (first_seen l) = find (has_url k) l.
Proof.
  induction l as [|c l IH]; simpl; [done|].
  destruct (has_url k c) eqn:Hc; [done|].
  rewrite find_filter_weaker; [done|].
  intros x Hx. unfold has_url in *.
  apply str_eqb_eq in Hx. subst k.
  destruct (str_eqb (url x) (url c)) eqn:E; [|done].
  apply str_eqb_eq in E. apply not_true_iff_false in Hc.
  exfalso. apply Hc. by apply str_eqb_eq.
Qed.

Lemma first_seen_NoDup l : NoDup (map url (first_seen l)).
Proof.
  induction l as [|c l IH]; simpl; [constructor|].
  constructor.
  - intros Hin. apply list_elem_of_fmap in Hin as (x & Hx & Hin).
    apply list_elem_of_In, filter_In in Hin as [_ Hin].
    unfold has_url in Hin. apply negb_true_iff, not_true_iff_false in Hin.
    apply Hin. by apply str_eqb_eq.
  - eapply sublist_NoDup; [exact IH|].
    exact (fmap_sublist url _ _ (filter_sublist _ _)).
Qed.

(** C6. The deduplicator of [run] keeps, for every locator of the input, the
    first record that carries it and no other: its output is [first_seen],
    no two of its records share a locator, looking a locator up gives the
    same record in the output as in the input (the earliest one), and the
    output is a subsequence of the input. *)
Theorem unique_channels_list_spec (all_channels : list channel) :
  unique_channels_list all_channels = first_seen all_channels /\
  NoDup (map url (unique_channels_list all_channels)) /\
  (forall k, find (has_url k) (unique_channels_list all_channels)
             = find (has_url k) all_channels) /\
  unique_channels_list all_channels `sublist_of` all_channels.
Proof.
  rewrite unique_channels_list_first_seen.
  split; [done|]. split; [apply first_seen_NoDup|].
  split; [intros; apply first_seen_find | apply first_seen_sublist].
Qed.

(** ** The quality filter and the categorizer *)

Section KeywordProps.
Context `{CaseTable}.

Lemma lower_literal kw :
  forallb plain kw = true -> map ascii_lower kw = kw -> lower kw = kw.
Proof. intros Hp Hl. by rewrite lower_plain. Qed.

Lemma matches_set_lowered kws text :
  Forall (fun kw => lower kw = kw) kws -> any_in kws (lower text) = matches_set kws text.
Proof.
  unfold any_in, matches_set, contains_ci.
  induction 1 as [|kw kws Hkw _ IH]; simpl; [done|]. by rewrite IH, Hkw.
Qed.

Lemma matches_set_app a b text :
  matches_set (a ++ b) text = matches_set a text || matches_set b text.
Proof. apply existsb_app. Qed.

Ltac literals := repeat constructor; by apply lower_literal.

Lemma bad_names_lowered : Forall (fun kw => lower kw = kw) bad_names.
Proof. literals. Qed.

Lemma cctv_lowered : Forall (fun kw => lower kw = kw) cctv_keywords.
Proof. literals. Qed.

Lemma satellite_lowered : Forall (fun kw => lower kw = kw) satellite_keywords.
Proof. literals. Qed.

Lemma local_lowered : Forall (fun kw => lower kw = kw) local_keywords.
Proof. literals. Qed.

Lemma hongkong_lower_lowered : Forall (fun kw => lower kw = kw) hongkong_lower.
Proof. literals. Qed.

(** The three keywords written in capitals are compared with a lowered
    name, so they match no name at all. *)
Lemma hongkong_upper_dead text : any_in hongkong_upper (lower text) = false.
Proof.
  unfold any_in, hongkong_upper. cbn [existsb].
  by rewrite (py_in_upper_false (u "HOY")), (py_in_upper_false (u "NOW")),
    (py_in_upper_false (u "RTHK")) by first [apply lower_no_upper | done].
Qed.

Lemma any_in_hongkong text :
  any_in hongkong_keywords (lower text) = matches_set hongkong_lower text.
Proof.
  rewrite <- matches_set_lowered by apply hongkong_lower_lowered.
  unfold any_in, hongkong_keywords, hongkong_lower. cbn [existsb].
  rewrite (py_in_upper_false (u "HOY")), (py_in_upper_false (u "NOW")),
    (py_in_upper_false (u "RTHK")) by first [apply lower_no_upper | done].
  btauto.
Qed.

Lemma matches_hongkong text :
  matches_set hongkong_keywords text
  = matches_set hongkong_lower text || matches_set hongkong_upper text.
Proof.
  unfold matches_set, hongkong_keywords, hongkong_lower, hongkong_upper.
  cbn [existsb]. btauto.
Qed.

Lemma quality_fold chs : forall acc,
  fold_left quality_step chs acc = acc ++ List.filter (fun c => negb (excluded c)) chs.
Proof.
  induction chs as [|c chs IH]; intros acc; simpl; [by rewrite app_nil_r|].
  rewrite IH. unfold quality_step, excluded.
  rewrite matches_set_lowered by apply bad_names_lowered.
  destruct (matches_set bad_names (name c)); cbn [negb]; [done|].
  destruct (any_in good_keywords (lower (name c))); by rewrite <- app_assoc.
Qed.

Lemma filter_quality_channels_filter channels :
  filter_quality_channels channels = List.filter (fun c => negb (excluded c)) channels.
Proof. apply (quality_fold channels []). Qed.

(** C7. The output of the quality filter is the input without the records
    whose name contains, whatever the case, a keyword of [bad_names]; the
    records that stay are unchanged and in input order.  The list
    [good_keywords] has no part in it: a record is in the output exactly
    when it is in the input and is not excluded. *)
Theorem filter_quality_channels_spec (channels : list channel) :
  filter_quality_channels channels
  = List.filter (fun c => negb (excluded c)) channels /\
  (forall c, In c (filter_quality_channels channels)
             <-> In c channels /\ excluded c = false) /\
  filter_quality_channels channels `sublist_of` channels.
Proof.
  rewrite filter_quality_channels_filter. split; [done|]. split.
  - intros c. rewrite filter_In, negb_true_iff. done.
  - apply filter_sublist.
Qed.

Lemma categorize_agrees channel_name :
  matches_set hongkong_upper channel_name = false \/
  matches_set (cctv_keywords ++ satellite_keywords ++ local_keywords ++ hongkong_lower)
    channel_name = true ->
  categorize_channel channel_name = categorize_spec channel_name.
Proof.
  rewrite !matches_set_app.
  unfold categorize_channel, categorize_spec. cbv zeta.
  rewrite !matches_set_lowered by
    first [apply cctv_lowered | apply satellite_lowered | apply local_lowered].
  rewrite any_in_hongkong, matches_hongkong.
  destruct (matches_set cctv_keywords channel_name); [done|].
  destruct (matches_set satellite_keywords channel_name); [done|].
  destruct (matches_set local_keywords channel_name); [done|].
  destruct (matches_set hongkong_lower channel_name); [done|].
  simpl. intros [->| ?]; done.
Qed.

Lemma categorize_cctv_first channel_name :
  matches_set cctv_keywords channel_name = true ->
  categorize_channel channel_name = u "cctv".
Proof.
  intros Hc. unfold categorize_channel. cbv zeta.
  by rewrite matches_set_lowered, Hc by apply cctv_lowered.
Qed.

Ltac categorize_literal :=
  unfold categorize_channel; rewrite lower_plain by done; reflexivity.

(** C3 (amended). The categorizer tries the rule sets in the order cctv,
    satellite, local, hongkong and returns the label of the first set with a
    case-insensitive substring match, and [other] when no set has one, for
    every name that has no such match with HOY, NOW or RTHK or has one with
    another keyword; a name that matches a cctv keyword is [cctv] whatever
    else it matches; and the four names of the design document get the
    labels it gives. *)
Theorem categorize_channel_spec :
  (forall channel_name,
     matches_set hongkong_upper channel_name = false \/
     matches_set (cctv_keywords ++ satellite_keywords ++ local_keywords
                  ++ hongkong_lower) channel_name = true ->
     categorize_channel channel_name = categorize_spec channel_name) /\
  (forall channel_name,
     matches_set cctv_keywords channel_name = true ->
     categorize_channel channel_name = u "cctv") /\
  categorize_channel (u "CCTV-1 综合") = u "cctv" /\
  categorize_channel (u "湖南卫视") = u "satellite" /\
  categorize_channel (u "TVB翡翠台") = u "hongkong" /\
  categorize_channel (u "Random Channel") = u "other".
Proof.
  split; [exact categorize_agrees|]. split; [exact categorize_cctv_first|].
  repeat split; categorize_literal.
Qed.

End KeywordProps.

(** A name with both a cctv and a satellite keyword, at the ASCII table. *)
Lemma categorize_channel_spec_witness :
  categorize_channel (u "CCTV 湖南卫视") = u "cctv" /\
  categorize_channel (u "TVB翡翠台") = categorize_spec (u "TVB翡翠台").
Proof.
  split.
  - apply (proj1 (proj2 categorize_channel_spec)). reflexivity.
  - apply (proj1 categorize_channel_spec). right. reflexivity.
Defined.

(** C3 as stated fails: the rule sets are not disjoint, since 凤凰 is a
    keyword of both the satellite and the hongkong set; and a name whose
    only match is one of the keywords written in capitals gets [other]. *)
Lemma categorize_channel_counterexample :
  ~ disjoint_sets satellite_keywords hongkong_keywords /\
  matches_set hongkong_keywords (u "HOY TV") = true /\
  categorize_spec (u "HOY TV") = u "hongkong" /\
  categorize_channel (u "HOY TV") = u "other".
Proof.
  split; [|by vm_compute].
  intros Hd. apply (Hd (u "凤凰")); vm_compute; tauto.
Qed.

Example filter_quality_channels_examples :
  let demo := Channel [] (u "Demo Channel") (u "http://a/1") [] in
  let cctv := Channel [] (u "CCTV-1") (u "http://a/2") [] in
  let random := Channel [] (u "Random Channel") (u "http://a/3") [] in
  filter_quality_channels [demo; cctv; random] = [cctv; random].
Proof. reflexivity. Qed.

(** ** The parser *)

Lemma meta_not_transport raw : is_metadata raw = true -> is_transport raw = false.
Proof.
  unfold is_metadata, is_transport. intros Hm.
  apply startswith_app in Hm as [r ->]. reflexivity.
Qed.

Lemma parse_step_meta source_url st i raw :
  is_metadata raw = true ->
  parse_step source_url st (i, raw) = (st.1, Some (open_channel i (strip raw))).
Proof.
  unfold is_metadata, parse_step. cbn [fst snd]. intros Hm. rewrite Hm.
  by destruct (strip raw).
Qed.

Lemma parse_step_transport source_url st i raw :
  is_transport raw = true ->
  parse_step source_url st (i, raw)
  = match st.2 with
    | Some cur =>
      (st.1 ++ [{| raw_extinf := p_raw_extinf cur; name := p_name cur;
                   url := strip raw; source := source_url |}], None)
    | None => st
    end.
Proof.
  intros Ht. assert (Hm : is_metadata raw = false).
  { destruct (is_metadata raw) eqn:E; [|done]. apply meta_not_transport in E. congruence. }
  unfold is_metadata, is_transport, parse_step in *. cbn [fst snd].
  rewrite Hm, Ht. destruct (strip raw); [|done]. done.
Qed.

Lemma parse_step_other source_url st i raw :
  is_metadata raw = false -> is_transport raw = false ->
  parse_step source_url st (i, raw) = st.
Proof.
  unfold is_metadata, is_transport, parse_step. cbn [fst snd].
  intros -> ->. by destruct (strip raw).
Qed.

Lemma enumerate_from_app {A} (l1 l2 : list A) : forall k,
  enumerate_from k (l1 ++ l2) = enumerate_from k l1 ++ enumerate_from (k + length l1) l2.
Proof.
  induction l1 as [|x l1 IH]; intros k; simpl.
  - by rewrite Nat.add_0_r.
  - rewrite IH. do 3 f_equal. lia.
Qed.

Lemma channel_of_eq lines source_url i j :
  channel_of lines source_url (i, j)
  = let cur := open_channel i (strip (nth i lines [])) in
    {| raw_extinf := p_raw_extinf cur; name := p_name cur;
       url := strip (nth j lines []); source := source_url |}.
Proof. reflexivity. Qed.


Lemma pending_at_unique lines n i i' :
  pending_at lines n i -> pending_at lines n i' -> i = i'.
Proof.
  intros (Hi & Hm & Hk) (Hi' & Hm' & Hk').
  destruct (lt_eq_lt_dec i i') as [[Hlt|]|Hlt]; [|done|].
  - destruct (Hk i'); [lia|congruence].
  - destruct (Hk' i); [lia|congruence].
Qed.


Section Pending.
Variable lines : list pystr.
Variable n : nat.

Lemma pending_at_S_meta i :
  is_metadata (nth n lines []) = true -> pending_at lines (S n) i <-> i = n.
Proof.
  intros Hm. split.
  - intros (Hi & _ & Hk). destruct (decide (i = n)) as [|Hne]; [done|].
    destruct (Hk n); [lia|congruence].
  - intros ->. split; [lia|]. split; [done|]. intros k ?. lia.
Qed.

Lemma pending_at_S_transport i :
  is_transport (nth n lines []) = true -> ~ pending_at lines (S n) i.
Proof.
  intros Ht (Hi & Hm & Hk). destruct (decide (i = n)) as [->|Hne].
  - apply meta_not_transport in Hm. congruence.
  - destruct (Hk n); [lia|congruence].
Qed.

Lemma pending_at_S_other i :
  is_metadata (nth n lines []) = false -> is_transport (nth n lines []) = false ->
  pending_at lines (S n) i <-> pending_at lines n i.
Proof.
  intros Hm Ht. split.
  - intros (Hi & Hmi & Hk). destruct (decide (i = n)) as [->|Hne]; [congruence|].
    split; [lia|]. split; [done|]. intros k ?. apply Hk. lia.
  - intros (Hi & Hmi & Hk). split; [lia|]. split; [done|].
    intros k ?. destruct (decide (k = n)) as [->|Hne]; [done|]. apply Hk. lia.
Qed.

Lemma complete_pair_S i j :
  complete_pair lines i j /\ (j < S n)%nat <->
  (complete_pair lines i j /\ (j < n)%nat) \/
  (j = n /\ pending_at lines n i /\ is_transport (nth n lines []) = true).
Proof.
  unfold complete_pair. split.
  - intros [[Hp Ht] Hj]. destruct (decide (j = n)) as [->|Hne]; [by right|].
    left. split; [done|lia].
  - intros [[Hc Hj]|(-> & Hp & Ht)]; (split; [done|lia]).
Qed.

Lemma complete_pair_before i j i' :
  complete_pair lines i j -> (j < n)%nat -> pending_at lines n i' -> (j < i')%nat.
Proof.
  intros [_ Ht] Hj (Hi' & Hm' & Hk').
  destruct (lt_eq_lt_dec j i') as [[Hlt| ->]|Hlt]; [done| |].
  - apply meta_not_transport in Hm'. congruence.
  - destruct (Hk' j); [lia|congruence].
Qed.

End Pending.

(** The invariant of the loop of [parse_m3u]. *)
Lemma parse_prefix lines source_url n :
  (n <= length lines)%nat ->
  parse_inv lines source_url n
    (parse_lines source_url (enumerate_from 0 (take n lines)) ([], None)).
Proof.
  induction n as [|n IH]; intros Hn.
  - split.
    + exists []. split; [done|]. split; [|constructor].
      intros i j. split; [done|]. intros [_ ?]. lia.
    + intros i (? & _). lia.
  - destruct (lookup_lt_is_Some_2 lines n) as [raw Hraw]; [lia|].
    rewrite (take_S_r _ _ _ Hraw), enumerate_from_app.
    rewrite length_take, Nat.min_l by lia.
    unfold parse_lines in *. rewrite fold_left_app.
    specialize (IH ltac:(lia)).
    set (st := fold_left _ (enumerate_from 0 _) _) in *.
    assert (Hnth : nth n lines [] = raw)
      by by apply nth_lookup_Some with (d := []) in Hraw.
    destruct IH as [(pairs & Hch & Hpairs & Hsorted) Hpend].
    cbn [enumerate_from fold_left Nat.add].
    destruct (is_metadata raw) eqn:Hm; [|destruct (is_transport raw) eqn:Ht].
    + (* a metadata line *)
      rewrite parse_step_meta by done. split.
      * exists pairs. split; [done|]. split; [|done].
        intros i j. rewrite Hpairs, complete_pair_S. split; [by left|].
        intros [|(_ & _ & Ht)]; [done|].
        rewrite Hnth, meta_not_transport in Ht; done.
      * exists n. split; [|by rewrite Hnth].
        apply pending_at_S_meta; by rewrite ?Hnth.
    + (* a transport line *)
      rewrite parse_step_transport by done.
      destruct (st.2) as [p|] eqn:Hp.
      * destruct Hpend as (i & Hi & ->). split.
        -- exists (pairs ++ [(i, n)]). split; [|split].
           ++ cbn [fst snd]. rewrite map_app, Hch. cbn [map].
              by rewrite channel_of_eq, Hnth.
           ++ intros i' j. rewrite in_app_iff, Hpairs, complete_pair_S. split.
              ** intros [|[[= <- <-]|[]]]; [by left|right]. by rewrite Hnth.
              ** intros [|(-> & Hp' & _)]; [by left|right; left].
                 f_equal. by apply (pending_at_unique lines n).
           ++ apply StronglySorted_app. split; [|split; [done|repeat constructor]].
              intros [i' j'] x2 Hin ->%list_elem_of_singleton.
              apply list_elem_of_In, Hpairs in Hin as [Hc Hj]. unfold before. cbn [fst snd].
              by apply (complete_pair_before lines n i' j').
        -- cbn [snd]. intros i'. apply pending_at_S_transport. by rewrite Hnth.
      * split.
        -- exists pairs. split; [done|]. split; [|done].
           intros i j. rewrite Hpairs, complete_pair_S. split; [by left|].
           intros [|(_ & Hp' & _)]; [done|]. by apply Hpend in Hp'.
        -- rewrite Hp. intros i'. apply pending_at_S_transport. by rewrite Hnth.
    + (* any other line *)
      rewrite parse_step_other by done. split.
      * exists pairs. split; [done|]. split; [|done].
        intros i j. rewrite Hpairs, complete_pair_S. split; [by left|].
        intros [|(_ & _ & Ht')]; [done|]. rewrite Hnth in Ht'. congruence.
      * destruct (st.2) as [p|].
        -- destruct Hpend as (i & Hi & ->). exists i. split; [|done].
           apply pending_at_S_other; by rewrite ?Hnth.
        -- intros i Hi. apply (Hpend i).
           apply (pending_at_S_other lines n i); by rewrite ?Hnth.
Qed.

Lemma parse_m3u_pairs content source_url :
  exists pairs,
    parse_m3u content source_url = map (channel_of (splitlines content) source_url) pairs /\
    (forall i j, In (i, j) pairs <-> complete_pair (splitlines content) i j) /\
    StronglySorted before pairs.
Proof.
  pose proof (parse_prefix (splitlines content) source_url (length (splitlines content))
                ltac:(lia)) as [(pairs & Hch & Hpairs & Hsorted) _].
  rewrite firstn_all in Hch. exists pairs. split; [done|]. split; [|done].
  intros i j. rewrite Hpairs. split; [by intros []|]. intros Hc. split; [done|].
  destruct Hc as [_ Ht]. destruct (le_lt_dec (length (splitlines content)) j); [|done].
  by rewrite nth_overflow in Ht.
Qed.

Lemma last_line_no_break cur :
  no_break cur -> Forall no_break (match cur with [] => [] | _ => [cur] end).
Proof. intros Hcur. destruct cur; [constructor|]. constructor; [done|constructor]. Qed.

Lemma splitlines_from_no_break n : forall s cur,
  (length s <= n)%nat -> no_break cur -> Forall no_break (splitlines_from cur s).
Proof.
  induction n as [|n IH]; intros s cur Hlen Hcur.
  - destruct s; [|simpl in Hlen; lia]. by apply last_line_no_break.
  - destruct s as [|c s]; simpl in *.
    { by apply last_line_no_break. }
    destruct (is_linebreak c) eqn:Hc.
    + constructor; [done|]. destruct s as [|c' s'].
      * apply IH; [simpl; lia|constructor].
      * simpl in Hlen. destruct ((c =? 13) && (c' =? 10)); apply IH; simpl; try lia; constructor.
    + apply IH; [lia|]. apply Forall_app. split; [done|]. by repeat constructor.
Qed.

Lemma splitlines_no_break content : Forall no_break (splitlines content).
Proof. by apply (splitlines_from_no_break (length content)); [|constructor]. Qed.

Lemma lstrip_suffix s : exists l, s = l ++ lstrip s.
Proof.
  induction s as [|c s [l IH]]; simpl; [by exists []|].
  destruct (isspace c); [|by exists []]. exists (c :: l). simpl. by f_equal.
Qed.

Lemma rstrip_prefix s : exists r, s = rstrip s ++ r.
Proof.
  induction s as [|c s [r IH]]; simpl; [by exists []|].
  destruct (rstrip s) as [|d t] eqn:E.
  - destruct (isspace c); [by exists (c :: s)|]. exists r. simpl. by f_equal.
  - exists r. simpl. by f_equal.
Qed.

Lemma strip_Forall (P : Z -> Prop) s : Forall P s -> Forall P (strip s).
Proof.
  unfold strip. intros Hs.
  destruct (lstrip_suffix s) as [l Hl]. destruct (rstrip_prefix (lstrip s)) as [r Hr].
  rewrite Hl, Hr in Hs. apply Forall_app in Hs as [_ Hs].
  by apply Forall_app in Hs as [Hs _].
Qed.

Lemma nth_no_break content i : no_break (strip (nth i (splitlines content) [])).
Proof.
  apply strip_Forall.
  destruct (le_lt_dec (length (splitlines content)) i) as [Hi|Hi].
  - rewrite nth_overflow by done. constructor.
  - pose proof (splitlines_no_break content) as Hall.
    rewrite Forall_forall in Hall. apply Hall, list_elem_of_In, nth_In, Hi.
Qed.

Lemma dotstar_eol_no_break s : no_break s -> dotstar_eol s = Some s.
Proof.
  induction 1 as [|c s Hc _ IH]; simpl; [done|].
  destruct (c =? newline) eqn:E.
  - apply Z.eqb_eq in E. by subst c.
  - by rewrite IH.
Qed.

Lemma re_search_name_no_break s :
  no_break s -> re_search_name s = snd <$> split_first comma s.
Proof.
  induction 1 as [|c s Hc Hs IH]; simpl; [done|].
  destruct (c =? comma).
  - by rewrite dotstar_eol_no_break.
  - rewrite IH. by destruct (split_first comma s) as [[]|].
Qed.

Lemma open_channel_name i line :
  no_break line -> p_name (open_channel i line) = name_after_first_comma i line.
Proof.
  intros Hl. unfold open_channel, name_after_first_comma. cbn [p_name].
  rewrite re_search_name_no_break by done.
  by destruct (split_first comma line) as [[]|].
Qed.

Lemma rstrip_nil s : rstrip s = [] <-> forallb isspace s = true.
Proof.
  induction s as [|c s IH]; simpl; [done|].
  destruct (rstrip s) eqn:E.
  - destruct (isspace c); simpl; [|done]. split; [intros _; by apply IH|done].
  - split; [done|]. intros [_ H]%andb_true_iff. by apply IH in H.
Qed.

Lemma lstrip_all s : forallb isspace s = true -> lstrip s = [].
Proof.
  induction s as [|c s IH]; simpl; [done|]. intros [-> H]%andb_true_iff. auto.
Qed.

Lemma lstrip_head s : match lstrip s with [] => True | c :: _ => isspace c = false end.
Proof.
  induction s as [|c s IH]; simpl; [done|]. by destruct (isspace c) eqn:E.
Qed.

Lemma strip_nil s : strip s = [] <-> forallb isspace s = true.
Proof.
  unfold strip. rewrite rstrip_nil. split.
  - intros Hs. pose proof (lstrip_head s) as Hh.
    destruct (lstrip s) as [|c t] eqn:E.
    + clear Hs Hh. induction s as [|d s IH]; simpl in *; [done|].
      destruct (isspace d); [auto|done].
    + simpl in Hs. by rewrite Hh in Hs.
  - intros Hs. by rewrite lstrip_all.
Qed.

Lemma name_after_first_comma_nil i line :
  name_after_first_comma i line = [] <->
  exists pre rest, split_first comma line = Some (pre, rest) /\ forallb isspace rest = true.
Proof.
  unfold name_after_first_comma. destruct (split_first comma line) as [[pre rest]|].
  - rewrite strip_nil. split; [by exists pre, rest|by intros (? & ? & [= <- <-] & ?)].
  - split; [done|]. by intros (? & ? & ? & _).
Qed.

(** C5 (amended). A metadata line opens a pending record whose name is the
    text after the first comma of the line, stripped, or [Unknown_i] for
    line [i] of the text when the line has no comma; every record of the
    output has the name its metadata line opened; and that name is empty
    exactly when the line has a comma and only whitespace follows its first
    comma. *)
Theorem parse_m3u_display_name (content source_url : pystr) :
  (forall i st,
     is_metadata (nth i (splitlines content) []) = true ->
     (parse_step source_url st (i, nth i (splitlines content) [])).2
     = Some {| p_raw_extinf := strip (nth i (splitlines content) []);
               p_name := name_after_first_comma i
                           (strip (nth i (splitlines content) [])) |}) /\
  (forall c, In c (parse_m3u content source_url) ->
     exists i, is_metadata (nth i (splitlines content) []) = true /\
               raw_extinf c = strip (nth i (splitlines content) []) /\
               name c = name_after_first_comma i (raw_extinf c)) /\
  (forall i line,
     name_after_first_comma i line = [] <->
     exists pre rest, split_first comma line = Some (pre, rest) /\
                      forallb isspace rest = true).
Proof.
  split; [|split].
  - intros i st Hm. rewrite parse_step_meta by done. cbn [snd]. f_equal.
    rewrite <- (open_channel_name i) by apply nth_no_break. done.
  - intros c Hc. destruct (parse_m3u_pairs content source_url) as (pairs & E & Hp & _).
    rewrite E in Hc. apply in_map_iff in Hc as ([i j] & <- & Hin).
    apply Hp in Hin as [(_ & Hm & _) _]. exists i. split; [done|]. split; [done|].
    cbn [channel_of name raw_extinf fst]. apply open_channel_name, nth_no_break.
  - apply name_after_first_comma_nil.
Qed.

Lemma sorted_pairs_NoDup (pairs : list (nat * nat)) :
  StronglySorted before pairs -> (forall p, In p pairs -> (p.1 < p.2)%nat) ->
  NoDup pairs.
Proof.
  induction 1 as [|p l _ IH Hall]; intros Hlt; [constructor|].
  constructor; [|apply IH; intros; apply Hlt; by right].
  intros Hin. rewrite Forall_forall in Hall. specialize (Hall p Hin).
  specialize (Hlt p (or_introl eq_refl)). unfold before in Hall. lia.
Qed.

(** C8. The output of the parser is one record per complete pair of a
    metadata line and a transport line, in the order of the pairs in the
    text, so it has as many records as the text has complete pairs; a blank
    line changes nothing; and a transport line read while no metadata line
    is pending adds no record. *)
Theorem parse_m3u_complete_pairs (content source_url : pystr) :
  (exists pairs : list (nat * nat),
     parse_m3u content source_url
     = map (channel_of (splitlines content) source_url) pairs /\
     (forall i j, In (i, j) pairs <-> complete_pair (splitlines content) i j) /\
     NoDup pairs /\ StronglySorted before pairs /\
     length (parse_m3u content source_url) = length pairs) /\
  (forall st i raw, strip raw = [] -> parse_step source_url st (i, raw) = st) /\
  (forall channels i raw,
     is_transport raw = true ->
     parse_step source_url (channels, None) (i, raw) = (channels, None)).
Proof.
  split; [|split].
  - destruct (parse_m3u_pairs content source_url) as (pairs & E & Hp & Hs).
    exists pairs. split; [done|]. split; [done|]. split; [|split; [done|]].
    + apply sorted_pairs_NoDup; [done|]. intros [i j] Hin.
      apply Hp in Hin as [(Hlt & _) _]. done.
    + by rewrite E, length_map.
  - intros st i raw Hb. unfold parse_step. cbn [snd]. by rewrite Hb.
  - intros channels i raw Ht. by rewrite parse_step_transport.
Qed.

(** C10. When a metadata line [i] is followed by a metadata line [i'] with
    no transport line between them, reading line [i'] replaces whatever was
    pending, line [i] is in no complete pair, and no record of the output
    comes from it.  The parser is a total function: nothing is raised. *)
Theorem parse_m3u_metadata_overwritten (content source_url : pystr) (i i' : nat) :
  (i < i')%nat ->
  is_metadata (nth i (splitlines content) []) = true ->
  is_metadata (nth i' (splitlines content) []) = true ->
  (forall k, (i < k < i')%nat -> is_transport (nth k (splitlines content) []) = false) ->
  (forall st,
     parse_step source_url st (i', nth i' (splitlines content) [])
     = (st.1, Some (open_channel i' (strip (nth i' (splitlines content) []))))) /\
  (forall j, ~ complete_pair (splitlines content) i j) /\
  exists pairs,
    parse_m3u content source_url
    = map (channel_of (splitlines content) source_url) pairs /\
    forall p, In p pairs -> p.1 <> i.
Proof.
  intros Hlt Hm Hm' Hbetween.
  assert (Hno : forall j, ~ complete_pair (splitlines content) i j).
  { intros j [(Hj & _ & Hk) Ht].
    destruct (lt_eq_lt_dec j i') as [[Hj'| ->]|Hj'].
    - rewrite Hbetween in Ht by lia. done.
    - apply meta_not_transport in Hm'. congruence.
    - destruct (Hk i'); [lia|congruence]. }
  split; [|split; [done|]].
  - intros st. by apply parse_step_meta.
  - destruct (parse_m3u_pairs content source_url) as (pairs & E & Hp & _).
    exists pairs. split; [done|]. intros [a b] Hin Ha. cbn [fst] in Ha. subst a.
    apply Hp in Hin. by apply Hno in Hin.
Qed.


(** Two metadata lines and one locator: the first line gives no record. *)
Lemma parse_m3u_metadata_overwritten_witness :
  (forall j, ~ complete_pair (splitlines two_metadata_lines) 0 j) /\
  map name (parse_m3u two_metadata_lines (u "s")) = [u "Second"].
Proof.
  split; [|reflexivity].
  apply (parse_m3u_metadata_overwritten two_metadata_lines (u "s") 0 1);
    [lia | reflexivity | reflexivity | intros k ?; lia].
Defined.


(** C5 as stated fails: the name of [#EXTINF:-1,News, Sports] is the text
    after the first comma, not after the last, and the name of [#EXTINF:-1,]
    is empty. *)
Lemma parse_m3u_display_name_counterexample :
  map name (parse_m3u names_with_commas (u "s")) = [u "News, Sports"; []] /\
  name_after_last_comma 0 (u "#EXTINF:-1,News, Sports") = u "Sports".
Proof. split; reflexivity. Qed.

Example parse_m3u_example :
  parse_m3u
    (u "#EXTM3U" ++ [13; 10] ++ u "http://orphan/" ++ [13; 10] ++
     u "#EXTINF:-1 tvg-id=x, CCTV-1 " ++ [13; 10] ++ [13; 10] ++
     u "  http://a/1  " ++ [13; 10] ++ u "#EXTINF:-1" ++ [10] ++ u "rtmp://b/2")
    (u "src")
  = [Channel (u "#EXTINF:-1 tvg-id=x, CCTV-1") (u "CCTV-1") (u "http://a/1") (u "src");
     Channel (u "#EXTINF:-1") (u "Unknown_5") (u "rtmp://b/2") (u "src")].
Proof. reflexivity. Qed.

(** ** The prober *)

Section ProberProps.
Variable urlparse : pystr -> parse_result.
Variable head_request : request -> response.

Lemma is_empty_nil s : is_empty s = true <-> s = [].
Proof. by destruct s. Qed.

(** C2 (amended). The prober decides in this order.  A locator whose parse
    gives no scheme or no host is unreachable, "invalid URL format", with no
    request made.  Otherwise a locator whose text holds youtube.com,
    youtu.be or twitch.tv anywhere is reachable, "skipped", with no request
    made.  Otherwise exactly one HEAD request with redirects enabled is
    made: a status of 200, 301 or 302 is reachable, any other status is
    not, a timeout, a connection error and any other exception are
    unreachable with their own messages, the last one with the text of the
    exception.  A locator that [urlparse] rejects is unreachable with the
    text of that exception and no request.  At most one request is made in
    every case: there is no retry. *)
Theorem is_url_accessible_cases (c : channel) (timeout : Z) :
  (forall scheme netloc,
     urlparse (url c) = Parsed scheme netloc -> ~ well_formed scheme netloc ->
     is_url_accessible urlparse head_request c timeout
     = ((false, u "无效的URL格式"), [])) /\
  (forall scheme netloc,
     urlparse (url c) = Parsed scheme netloc -> well_formed scheme netloc ->
     contains_trusted (url c) = true ->
     is_url_accessible urlparse head_request c timeout
     = ((true, u "流媒体链接（跳过验证）"), [])) /\
  (forall scheme netloc,
     urlparse (url c) = Parsed scheme netloc -> well_formed scheme netloc ->
     contains_trusted (url c) = false ->
     is_url_accessible urlparse head_request c timeout
     = (match head_request (head_of c timeout) with
        | Status code =>
          (bool_decide (code = 200 \/ code = 301 \/ code = 302),
           u "状态码: " ++ str_of_Z code)
        | RaiseTimeout => (false, u "连接超时")
        | RaiseConnectionError => (false, u "连接错误")
        | RaiseException e => (false, u "异常: " ++ e)
        end, [head_of c timeout])) /\
  (forall e,
     urlparse (url c) = ParseError e ->
     is_url_accessible urlparse head_request c timeout
     = ((false, u "异常: " ++ e), [])) /\
  (length (is_url_accessible urlparse head_request c timeout).2 <= 1)%nat.
Proof.
  unfold is_url_accessible, well_formed, contains_trusted. fold (head_of c timeout).
  split_and!.
  - intros scheme netloc -> Hwf.
    destruct (is_empty scheme || is_empty netloc) eqn:E; [reflexivity|].
    exfalso. apply Hwf. apply orb_false_iff in E as [Hs Hn].
    split; intros ->; discriminate.
  - intros scheme netloc -> [Hs Hn] ->.
    destruct scheme; [by destruct Hs|]. destruct netloc; [by destruct Hn|].
    reflexivity.
  - intros scheme netloc -> [Hs Hn] ->.
    destruct scheme; [by destruct Hs|]. destruct netloc; [by destruct Hn|].
    cbn [is_empty orb]. destruct (head_request _) as [code| | |e]; try reflexivity.
    unfold ok_status. cbn [existsb]. rewrite orb_false_r.
    destruct (bool_decide_reflect (code = 200 \/ code = 301 \/ code = 302)) as [Hc|Hc].
    + replace ((code =? 200) || ((code =? 302) || (code =? 301))) with true;
        [reflexivity|].
      symmetry. rewrite !orb_true_iff, !Z.eqb_eq. tauto.
    + replace ((code =? 200) || ((code =? 302) || (code =? 301))) with false;
        [reflexivity|].
      symmetry. rewrite !orb_false_iff, !Z.eqb_neq. lia.
  - by intros e ->.
  - destruct (urlparse (url c)) as [scheme netloc|e]; [|cbn [snd length]; lia].
    destruct (is_empty scheme || is_empty netloc); [cbn [snd length]; lia|].
    destruct (existsb _ trusted_domains); [cbn [snd length]; lia|].
    destruct (head_request _) as [code| | |e];
      [destruct (existsb (Z.eqb code) ok_status)|..]; cbn [snd length]; lia.
Qed.

End ProberProps.

(** The third case, on a locator the network answers with 404. *)
Lemma is_url_accessible_cases_witness :
  is_url_accessible urlparse_model example_404 plain_locator 3
  = ((false, u "状态码: 404"), [head_of plain_locator 3]).
Proof.
  refine (proj1 (proj2 (proj2
    (is_url_accessible_cases urlparse_model example_404 plain_locator 3)))
    (u "http") (u "example.org") _ _ _); [reflexivity| |reflexivity].
  split; discriminate.
Defined.

(** C2 as stated fails: the host [example.org] is on no allow-list and the
    network would answer 404, yet the prober makes no request and reports
    the channel reachable, because the path of the locator holds
    [youtube.com]. *)
Lemma is_url_accessible_counterexample :
  urlparse_model (url path_names_platform) = Parsed (u "http") (u "example.org") /\
  contains_trusted (u "example.org") = false /\
  is_url_accessible urlparse_model example_404 path_names_platform 3
  = ((true, u "流媒体链接（跳过验证）"), []).
Proof. repeat split. Qed.

(** ** The validator *)

Lemma pool_step_content W p q : pool_step W p q -> pool_content q ≡ₚ pool_content p.
Proof.
  destruct 1; unfold pool_content; cbn [queued running finished]; solve_Permutation.
Qed.

Lemma pool_steps_content W p q : rtc (pool_step W) p q -> pool_content q ≡ₚ pool_content p.
Proof.
  induction 1 as [|p q r Hstep _ IH]; [done|].
  rewrite IH. by eapply pool_step_content.
Qed.

Lemma pool_run_permutation W n order : pool_run W n order -> order ≡ₚ seq 0 n.
Proof.
  intros Hrun. apply pool_steps_content in Hrun.
  unfold pool_content in Hrun. simpl in Hrun. by rewrite app_nil_r in Hrun.
Qed.

Lemma pool_sequential W q : forall d,
  (1 <= W)%nat ->
  rtc (pool_step W) {| queued := q; running := []; finished := d |}
                    {| queued := []; running := []; finished := d ++ q |}.
Proof.
  induction q as [|t q IH]; intros d HW.
  - rewrite app_nil_r. done.
  - eapply rtc_l; [apply (pool_start W t q [] d); simpl; lia|].
    eapply rtc_l; [apply (pool_finish W t q [] [] d)|]. simpl.
    replace (d ++ t :: q) with ((d ++ [t]) ++ q) by by rewrite <- app_assoc.
    by apply IH.
Qed.

Lemma pool_run_exists W n : (1 <= W)%nat -> exists order, pool_run W n order.
Proof. intros HW. exists (seq 0 n). by apply (pool_sequential W (seq 0 n) []). Qed.

Section ValidatorProps.
Variable channels : list channel.
Variable result : nat -> future_result.

Lemma collect_fold order st :
  Forall (fun i => (i < length channels)%nat) order ->
  fold_left (collect_step channels result) order st
  = (st.1 ++ valid_of channels result order, st.2 ++ outcomes_of channels result order).
Proof.
  intros Hin. revert st. unfold valid_of, outcomes_of.
  induction Hin as [|i order Hi _ IH]; intros st; simpl.
  - rewrite !app_nil_r. by destruct st.
  - rewrite IH. unfold collect_step.
    destruct (lookup_lt_is_Some_2 channels i Hi) as [c Hc]. rewrite Hc.
    pose proof (nth_lookup_Some _ _ no_channel _ Hc) as Hn.
    destruct (result i) as [[] m|e]; simpl; by rewrite ?Hn, <- ?app_assoc.
Qed.

Lemma permutation_inside order :
  order ≡ₚ seq 0 (length channels) ->
  Forall (fun i => (i < length channels)%nat) order.
Proof.
  intros Hp. rewrite Hp. apply Forall_forall. intros i Hi%list_elem_of_In%in_seq. lia.
Qed.

Lemma channels_by_index :
  map (fun i => nth i channels no_channel) (seq 0 (length channels)) = channels.
Proof.
  apply nth_ext with (d := no_channel) (d' := no_channel).
  - by rewrite length_map, length_seq.
  - intros n Hn. rewrite length_map, length_seq in Hn.
    rewrite (nth_indep _ _ (nth 0 channels no_channel)) by by rewrite length_map, length_seq.
    rewrite (map_nth (fun i => nth i channels no_channel) (seq 0 (length channels)) 0%nat).
    by rewrite seq_nth.
Qed.

Lemma outcome_key_of c r : outcome_key (outcome_of c r) = channel_key c.
Proof. by destruct r. Qed.

Lemma validate_channels_parallel_spec (W : nat) (order : list nat) :
  (1 <= W)%nat -> order ≡ₚ seq 0 (length channels) ->
  exists valid outcomes,
    validate_channels_parallel channels result W order = Some (valid, outcomes) /\
    outcomes = outcomes_of channels result order /\
    valid = valid_of channels result order /\
    length outcomes = length channels /\
    map outcome_key outcomes ≡ₚ map channel_key channels /\
    (forall o, In o outcomes -> exists c, In c channels /\ outcome_key o = channel_key c) /\
    (forall c, In c valid -> In c channels).
Proof.
  intros HW Hp. exists (valid_of channels result order), (outcomes_of channels result order).
  assert (Hmap : map outcome_key (outcomes_of channels result order)
                 = map channel_key (map (fun i => nth i channels no_channel) order)).
  { unfold outcomes_of. rewrite !map_map. apply map_ext. intros. apply outcome_key_of. }
  split_and!; try done.
  - unfold validate_channels_parallel. destruct W; [lia|].
    by rewrite collect_fold by by apply permutation_inside.
  - unfold outcomes_of. by rewrite length_map, Hp, length_seq.
  - rewrite Hmap, Hp, channels_by_index. done.
  - intros o Ho. apply (in_map outcome_key) in Ho. rewrite Hmap in Ho.
    apply in_map_iff in Ho as (c & Hc & Hin). exists c. split; [|done].
    apply in_map_iff in Hin as (i & <- & Hi). apply nth_In.
    apply list_elem_of_In in Hi. rewrite Hp in Hi.
    apply list_elem_of_In, in_seq in Hi. lia.
  - intros c (i & <- & Hi)%in_map_iff. apply filter_In in Hi as [Hi _]. apply nth_In.
    apply list_elem_of_In in Hi. rewrite Hp in Hi.
    apply list_elem_of_In, in_seq in Hi. lia.
Qed.

End ValidatorProps.

(** A failed probe changes the outcome of its own channel only. *)
Lemma outcomes_isolated channels result result' failed order pos i :
  (forall j, j <> failed -> result' j = result j) ->
  order !! pos = Some i -> i <> failed ->
  outcomes_of channels result' order !! pos = outcomes_of channels result order !! pos.
Proof.
  intros Hsame Hpos Hi. unfold outcomes_of.
  change (map ?f ?l) with (f <$> l).
  rewrite !list_lookup_fmap, Hpos. simpl. by rewrite Hsame.
Qed.

(** C1. For every pool width [W >= 1] the pool runs the [n] submitted probes
    to completion, and whatever the order in which the finished futures are
    yielded, the validator returns exactly [n] outcomes, one per input
    record: the outcomes are those of the yielded futures, each computed
    from the result of its own future; their records are the records of the
    input, none lost and none twice; every valid channel is an input
    channel; and changing the result of one probe, to a failure say, leaves
    the number of outcomes and the outcome of every other record as they
    were.  [W = 1] and [W > n] are instances. *)
Theorem validate_channels_parallel_outcomes
  (channels : list channel) (result : nat -> future_result) (W : nat) :
  (1 <= W)%nat ->
  (exists completion, pool_run W (length channels) completion) /\
  forall completion order,
    pool_run W (length channels) completion -> order ≡ₚ completion ->
    exists valid outcomes,
      validate_channels_parallel channels result W order = Some (valid, outcomes) /\
      length outcomes = length channels /\
      outcomes = outcomes_of channels result order /\
      map outcome_key outcomes ≡ₚ map channel_key channels /\
      (forall o, In o outcomes ->
         exists c, In c channels /\ outcome_key o = channel_key c) /\
      (forall c, In c valid -> In c channels) /\
      (forall result' failed,
         (forall j, j <> failed -> result' j = result j) ->
         exists valid' outcomes',
           validate_channels_parallel channels result' W order
           = Some (valid', outcomes') /\
           length outcomes' = length channels /\
           forall pos i, order !! pos = Some i -> i <> failed ->
                         outcomes' !! pos = outcomes !! pos).
Proof.
  intros HW. split; [by apply pool_run_exists|].
  intros completion order Hrun Hp.
  assert (Hseq : order ≡ₚ seq 0 (length channels)).
  { rewrite Hp. by eapply pool_run_permutation. }
  destruct (validate_channels_parallel_spec channels result W order HW Hseq)
    as (valid & outcomes & Hv & -> & -> & Hlen & Hperm & Hin & Hvalid).
  exists (valid_of channels result order), (outcomes_of channels result order).
  split_and!; try done.
  intros result' failed Hsame.
  destruct (validate_channels_parallel_spec channels result' W order HW Hseq)
    as (valid' & outcomes' & Hv' & -> & -> & Hlen' & _).
  exists (valid_of channels result' order), (outcomes_of channels result' order).
  split_and!; try done.
  intros pos i Hpos Hi. by apply (outcomes_isolated channels result result' failed order pos i).
Qed.

(** Width 1, two channels, the second future yielded first. *)
Lemma validate_channels_parallel_outcomes_witness :
  exists valid outcomes,
    validate_channels_parallel two_channels first_raises 1 [1; 0]%nat
    = Some (valid, outcomes) /\
    length outcomes = 2%nat /\
    outcomes = outcomes_of two_channels first_raises [1; 0]%nat.
Proof.
  destruct (proj2 (validate_channels_parallel_outcomes two_channels first_raises 1
                     (le_n 1)) [0; 1]%nat [1; 0]%nat)
    as (valid & outcomes & Hv & Hlen & Ho & _).
  - exact (pool_sequential 1 [0; 1]%nat [] (le_n 1)).
  - apply perm_swap.
  - exists valid, outcomes. split; [exact Hv|]. split; [exact Hlen|exact Ho].
Defined.

Example validate_channels_parallel_example :
  validate_channels_parallel two_channels first_raises 1 [1; 0]%nat
  = Some ([Channel (u "#EXTINF:-1,B") (u "B") (u "http://b/2") (u "s")],
          [{| o_channel := u "B"; o_url := u "http://b/2"; o_valid := true;
              o_message := u "ok" |};
           {| o_channel := u "A"; o_url := u "http://a/1"; o_valid := false;
              o_message := u "验证异常: boom" |}]).
Proof. reflexivity. Qed.

(** ** The buckets of [run] *)

Section BucketProps.
Context `{CaseTable}.

Lemma categorize_channel_label channel_name : In (categorize_channel channel_name) labels.
Proof.
  unfold categorize_channel, labels. cbv zeta.
  repeat match goal with |- context [if ?b then _ else _] => destruct b end;
    simpl; tauto.
Qed.

Lemma labels_NoDup : NoDup labels.
Proof. by apply (bool_decide_unpack _). Qed.

Lemma bucket_append_filter (f : pystr -> list channel) (g : pystr -> list channel)
  category c (ls : list pystr) :
  NoDup ls -> In category ls ->
  (forall label, g label = if str_eqb label category then f label ++ [c] else f label) ->
  bucket_append category c (map (fun label => (label, f label)) ls)
  = Some (map (fun label => (label, g label)) ls).
Proof.
  intros Hnd Hin Hg. induction Hnd as [|label ls Hnotin Hnd IH]; [done|].
  cbn [map bucket_append]. destruct (str_eqb label category) eqn:E.
  - apply str_eqb_eq in E. subst label. rewrite Hg, (proj2 (str_eqb_eq _ _) eq_refl).
    do 2 f_equal. apply map_ext_in. intros l Hl. rewrite Hg.
    destruct (str_eqb l category) eqn:E'; [|done].
    apply str_eqb_eq in E'. subst l. by apply list_elem_of_In in Hl.
  - destruct Hin as [->|Hin].
    { by rewrite (proj2 (str_eqb_eq _ _) eq_refl) in E. }
    rewrite IH by done. cbn [option_map]. by rewrite Hg, E.
Qed.

Lemma filter_snoc {A} (p : A -> bool) l x :
  List.filter p (l ++ [x]) = if p x then List.filter p l ++ [x] else List.filter p l.
Proof. rewrite List.filter_app. simpl. destruct (p x); by rewrite ?app_nil_r. Qed.

Lemma categorize_all_buckets valid : categorize_all valid = Some (buckets_of valid).
Proof.
  unfold categorize_all. induction valid as [|c valid IH] using rev_ind; [done|].
  rewrite fold_left_app. cbn [fold_left]. rewrite IH. unfold buckets_of.
  apply bucket_append_filter;
    [apply labels_NoDup | apply categorize_channel_label |].
  intros label. rewrite filter_snoc. unfold in_category, str_eqb.
  by rewrite (bool_decide_ext (categorize_channel (name c) = label)
               (label = categorize_channel (name c))).
Qed.

Lemma list_sum_cons a l : list_sum (a :: l) = (a + list_sum l)%nat.
Proof. reflexivity. Qed.

Lemma indicator_sum x (ls : list pystr) :
  NoDup ls -> In x ls ->
  list_sum (map (fun l => if str_eqb x l then 1 else 0)%nat ls) = 1%nat.
Proof.
  intros Hnd Hin. induction Hnd as [|l ls Hnotin Hnd IH]; [done|].
  cbn [map]; rewrite list_sum_cons. destruct (str_eqb x l) eqn:E.
  - apply str_eqb_eq in E. subst l.
    replace (list_sum _) with 0%nat; [done|]. symmetry.
    clear IH Hin Hnd. induction ls as [|l ls IH]; [done|].
    cbn [map]; rewrite list_sum_cons. apply not_elem_of_cons in Hnotin as [Hne Hnotin].
    rewrite IH by done. destruct (str_eqb x l) eqn:E; [|done].
    by apply str_eqb_eq in E.
  - destruct Hin as [->|Hin]; [by rewrite (proj2 (str_eqb_eq _ _) eq_refl) in E|].
    by rewrite IH.
Qed.

Lemma sizes_cons c valid (ls : list pystr) :
  list_sum (map (fun l => length (List.filter (in_category l) (c :: valid))) ls)
  = (list_sum (map (fun l => if str_eqb (categorize_channel (name c)) l then 1 else 0) ls)
     + list_sum (map (fun l => length (List.filter (in_category l) valid)) ls))%nat.
Proof.
  induction ls as [|l ls IH]; [done|].
  cbn [map]. rewrite !list_sum_cons, IH. cbn [List.filter]. unfold in_category at 1.
  destruct (str_eqb (categorize_channel (name c)) l); cbn [length]; lia.
Qed.

Lemma bucket_sizes_sum valid :
  list_sum (bucket_sizes (buckets_of valid)) = length valid.
Proof.
  unfold bucket_sizes, buckets_of. rewrite map_map. cbn [snd].
  induction valid as [|c valid IH].
  - done.
  - rewrite sizes_cons, IH, indicator_sum;
      [done | apply labels_NoDup | apply categorize_channel_label].
Qed.


Variable urlparse : pystr -> parse_result.
Variable network : nat -> request -> response.

Lemma judged_valid_probe quality i :
  judged_valid (probe_results urlparse network quality i) = true ->
  exists c, quality !! i = Some c /\
            (is_url_accessible urlparse (network i) c 3).1.1 = true.
Proof.
  unfold probe_results. destruct (quality !! i) as [c|]; [|done].
  cbn [judged_valid]. intros Hv. exists c. split; [done|].
  by destruct ((is_url_accessible urlparse (network i) c 3).1.1).
Qed.

Lemma valid_of_probed quality order c :
  In c (valid_of quality (probe_results urlparse network quality) order) ->
  exists i, quality !! i = Some c /\
            (is_url_accessible urlparse (network i) c 3).1.1 = true.
Proof.
  unfold valid_of. intros (i & <- & Hi)%in_map_iff.
  apply filter_In in Hi as [_ Hi]. apply judged_valid_probe in Hi as (c & Hc & Hv).
  exists i. by rewrite (nth_lookup_Some _ _ _ _ Hc).
Qed.

(** C9. [run] never fails on a lookup of a category.  Every record of a
    bucket is a record of the output of the quality filter, is not
    excluded, and is a record whose probe reported it reachable; the
    buckets are those of the five labels; a valid record is in the bucket
    of a label exactly when the categorizer gives it that label; and the
    sizes of the buckets add up to the number of valid records. *)
Theorem run_buckets (all_channels : list channel) (order : list nat) :
  order ≡ₚ seq 0 (length (filter_quality_channels (unique_channels_list all_channels))) ->
  exists r,
    run urlparse network all_channels order = Some r /\
    quality_channels r = filter_quality_channels (unique_channels_list all_channels) /\
    categorized_channels r = buckets_of (valid_channels r) /\
    map fst (categorized_channels r) = labels /\
    (forall label chs c,
       In (label, chs) (categorized_channels r) -> In c chs ->
       In c (quality_channels r) /\ excluded c = false /\
       exists i, quality_channels r !! i = Some c /\
                 (is_url_accessible urlparse (network i) c 3).1.1 = true) /\
    (forall label chs c,
       In (label, chs) (categorized_channels r) ->
       In c chs <-> In c (valid_channels r) /\ categorize_channel (name c) = label) /\
    list_sum (bucket_sizes (categorized_channels r)) = length (valid_channels r).
Proof.
  intros Hp. unfold run. cbv zeta.
  set (quality := filter_quality_channels (unique_channels_list all_channels)) in *.
  assert (exists valid results,
            match quality with
            | [] => Some ([], [])
            | _ :: _ =>
              validate_channels_parallel quality
                (probe_results urlparse network quality) 5 order
            end = Some (valid, results) /\
            forall c, In c valid ->
              exists i, quality !! i = Some c /\
                        (is_url_accessible urlparse (network i) c 3).1.1 = true)
    as (valid & results & -> & Hvalid).
  { destruct quality as [|q0 quality'] eqn:Hq.
    - exists [], []. split; [done|]. intros c [].
    - rewrite <- Hq in *.
      destruct (validate_channels_parallel_spec quality
                  (probe_results urlparse network quality) 5 order ltac:(lia) Hp)
        as (valid & results & -> & _ & -> & _).
      eexists _, _. split; [done|]. apply valid_of_probed. }
  rewrite categorize_all_buckets.
  eexists. split; [done|]. cbn [quality_channels categorized_channels valid_channels].
  assert (Hbucket : forall label chs c,
            In (label, chs) (buckets_of valid) ->
            In c chs <-> In c valid /\ categorize_channel (name c) = label).
  { intros label chs c (l & [= <- <-] & _)%in_map_iff.
    rewrite filter_In. unfold in_category. by rewrite str_eqb_eq. }
  split_and!; try done.
  - intros label chs c Hb Hc. apply (Hbucket _ _ _ Hb) in Hc as [Hc _].
    destruct (Hvalid c Hc) as (i & Hi & Hv).
    assert (Hin : In c quality) by (apply list_elem_of_In; by eapply list_elem_of_lookup_2).
    split; [done|]. split; [|by exists i].
    unfold quality in Hin. rewrite filter_quality_channels_filter in Hin.
    apply filter_In in Hin as [_ Hex]. by apply negb_true_iff in Hex.
  - apply bucket_sizes_sum.
Qed.

End BucketProps.

(** Four records, of which one is a duplicate and one is filtered out. *)
Lemma run_buckets_witness :
  exists r,
    run urlparse_model answers_200 three_channels [1; 0]%nat = Some r /\
    map name (valid_channels r) = [u "TVB"; u "CCTV-1"] /\
    list_sum (bucket_sizes (categorized_channels r)) = length (valid_channels r).
Proof.
  destruct (run_buckets urlparse_model answers_200 three_channels [1; 0]%nat)
    as (r & Hr & _ & _ & _ & _ & _ & Hsum).
  - vm_compute. apply perm_swap.
  - exists r. split; [exact Hr|]. split; [|exact Hsum].
    vm_compute in Hr. injection Hr as <-. reflexivity.
Defined.

(** ** The emitter and the round trip *)

Lemma splitlines_from_line l : forall cur rest,
  no_break l ->
  splitlines_from cur (l ++ newline :: rest) = (cur ++ l) :: splitlines_from [] rest.
Proof.
  induction l as [|c l IH]; intros cur rest Hl.
  - rewrite app_nil_r. simpl. by destruct rest.
  - apply Forall_cons in Hl as [Hc Hl]. simpl. rewrite Hc, IH by done.
    by rewrite <- app_assoc.
Qed.

Lemma splitlines_lines (ls : list pystr) :
  Forall no_break ls ->
  splitlines (concat (map (fun l => l ++ [newline]) ls)) = ls.
Proof.
  unfold splitlines. induction 1 as [|l ls Hl _ IH]; [done|].
  cbn [map concat]. rewrite <- app_assoc. cbn [app].
  by rewrite splitlines_from_line, IH.
Qed.

Lemma digits_no_break fuel : forall n, 0 <= n -> no_break (digits fuel n).
Proof.
  induction fuel as [|fuel IH]; intros n Hn; simpl; [constructor|].
  destruct (n <? 10) eqn:E.
  - apply Z.ltb_lt in E. repeat constructor.
    unfold is_linebreak. repeat (apply orb_false_iff; split); lia.
  - apply Forall_app. split; [apply IH; by apply Z.div_pos|].
    pose proof (Z.mod_pos_bound n 10 ltac:(lia)).
    repeat constructor. unfold is_linebreak.
    repeat (apply orb_false_iff; split); lia.
Qed.

Lemma str_of_nat_no_break n : no_break (str_of_nat n).
Proof. apply digits_no_break. lia. Qed.

Lemma literal_no_break s : forallb (fun c => negb (is_linebreak c)) s = true -> no_break s.
Proof.
  intros Hs. apply Forall_forall. intros c Hc.
  rewrite forallb_forall in Hs. apply list_elem_of_In, Hs in Hc.
  by apply negb_true_iff.
Qed.

Lemma no_break_app a b : no_break a -> no_break b -> no_break (a ++ b).
Proof. intros. by apply Forall_app. Qed.

Ltac no_break_parts :=
  repeat match goal with |- no_break (_ ++ _) => apply no_break_app end.

Lemma zero_pad_no_break w n : no_break (zero_pad w n).
Proof.
  unfold zero_pad. apply Forall_app. split; [|apply str_of_nat_no_break].
  by apply Forall_replicate.
Qed.

Lemma strftime_no_break t : no_break (strftime t).
Proof.
  unfold strftime. no_break_parts;
    first [apply zero_pad_no_break | by apply literal_no_break].
Qed.

Lemma header_lines_no_break utcnow now title total :
  no_break title -> Forall no_break (header_lines utcnow now title total).
Proof.
  intros Ht. unfold header_lines.
  repeat match goal with
         | |- Forall no_break (_ :: _) => apply Forall_cons_2
         | |- Forall no_break [] => apply Forall_nil_2
         end; no_break_parts;
    first [done | apply strftime_no_break | apply str_of_nat_no_break
          | by apply literal_no_break | apply Forall_nil_2].
Qed.

Lemma rstrip_cons_shape c s : rstrip (c :: s) = [] \/ exists t, rstrip (c :: s) = c :: t.
Proof.
  simpl. destruct (rstrip s); [|right; by eexists].
  destruct (isspace c); [by left|right; by eexists].
Qed.

Lemma rstrip_rstrip s : rstrip (rstrip s) = rstrip s.
Proof.
  induction s as [|c s IH]; [done|]. simpl.
  destruct (rstrip s) as [|d t] eqn:E.
  - destruct (isspace c) eqn:Hc; [done|]. simpl. by rewrite Hc.
  - change (rstrip (c :: d :: t)) with
      (match rstrip (d :: t) with [] => if isspace c then [] else [c] | t' => c :: t' end).
    by rewrite IH.
Qed.

Lemma lstrip_fixed c s : isspace c = false -> lstrip (c :: s) = c :: s.
Proof. intros Hc. simpl. by rewrite Hc. Qed.

Lemma strip_strip s : strip (strip s) = strip s.
Proof.
  unfold strip. pose proof (lstrip_head s) as Hh.
  destruct (lstrip s) as [|c t] eqn:E; [done|].
  destruct (rstrip_cons_shape c t) as [->|[t' Ht']]; [done|].
  rewrite Ht', lstrip_fixed, <- Ht' by done. apply rstrip_rstrip.
Qed.

(** A line that starts with a hash and a space is neither a metadata line
    nor a transport line. *)
Lemma comment_line_other rest :
  is_metadata (35 :: 32 :: rest) = false /\ is_transport (35 :: 32 :: rest) = false.
Proof.
  unfold is_metadata, is_transport, strip. rewrite lstrip_fixed by done.
  destruct (rstrip_cons_shape 35 (32 :: rest)) as [E|[t E]]; rewrite E; [done|].
  simpl in E. destruct (rstrip_cons_shape 32 rest) as [E'|[t' E']].
  - simpl in E'. rewrite E' in E. simpl in E. by injection E as <-.
  - simpl in E'. rewrite E' in E. by injection E as <-.
Qed.

Lemma header_lines_other utcnow now title total :
  Forall (fun l => is_metadata l = false /\ is_transport l = false)
    (header_lines utcnow now title total).
Proof.
  unfold header_lines. repeat apply Forall_cons_2; try apply Forall_nil_2; try done.
  - apply (comment_line_other (u "Generated: " ++ strftime utcnow ++ u " UTC")).
  - apply (comment_line_other (u "Updated: " ++ strftime now)).
  - apply (comment_line_other (u "Title: " ++ title)).
  - apply (comment_line_other (u "Total Channels: " ++ str_of_nat total)).
Qed.

Lemma fold_emit records : forall content,
  fold_left emit_channel records content
  = content ++ concat (map (fun l => l ++ [newline]) (record_lines records)).
Proof.
  induction records as [|c records IH]; intros content; simpl.
  - by rewrite app_nil_r.
  - rewrite IH. unfold emit_channel. by rewrite <- !app_assoc.
Qed.

Lemma header_concat utcnow now title total :
  header utcnow now title total
  = concat (map (fun l => l ++ [newline]) (header_lines utcnow now title total)).
Proof.
  unfold header, header_lines. cbn [map concat]. by rewrite <- !app_assoc.
Qed.

Lemma record_lines_no_break records :
  Forall parsed_record records -> Forall no_break (record_lines records).
Proof.
  induction 1 as [|c records (Hr & _ & _ & Hu & _) _ IH]; simpl; [constructor|].
  by repeat constructor.
Qed.

Lemma generated_lines utcnow now records title :
  no_break title -> Forall parsed_record records ->
  splitlines (generate_m3u_content utcnow now records title)
  = header_lines utcnow now title (length records) ++ record_lines records.
Proof.
  intros Ht Hr. unfold generate_m3u_content.
  rewrite fold_emit, header_concat, <- concat_app, <- map_app.
  apply splitlines_lines, Forall_app.
  split; [by apply header_lines_no_break | by apply record_lines_no_break].
Qed.

Lemma parse_other_lines source_url ls : forall k st,
  Forall (fun l => is_metadata l = false /\ is_transport l = false) ls ->
  parse_lines source_url (enumerate_from k ls) st = st.
Proof.
  unfold parse_lines. induction ls as [|l ls IH]; intros k st Hls; [done|].
  apply Forall_cons in Hls as [[Hm Ht] Hls]. cbn [enumerate_from fold_left].
  rewrite parse_step_other by done. by apply IH.
Qed.

Lemma parse_record_lines source_url records : forall k acc,
  Forall parsed_record records ->
  parse_lines source_url (enumerate_from k (record_lines records)) (acc, None)
  = (acc ++ reparsed_from k source_url records, None).
Proof.
  unfold parse_lines. induction records as [|c records IH]; intros k acc Hr.
  - simpl. by rewrite app_nil_r.
  - apply Forall_cons in Hr as [(Hnb & Hs & Hm & _ & Hsu & Ht & _) Hr].
    cbn [record_lines flat_map app enumerate_from fold_left].
    rewrite (parse_step_meta _ _ k (raw_extinf c)) by (unfold is_metadata; by rewrite Hs).
    rewrite (parse_step_transport _ _ (S k) (url c)) by (unfold is_transport; by rewrite Hsu).
    cbn [fst snd]. fold (record_lines records). rewrite IH by done.
    rewrite Hs, Hsu, open_channel_name by done.
    cbn [reparsed_from]. by rewrite <- app_assoc.
Qed.

Lemma parse_lines_app source_url l1 l2 st :
  parse_lines source_url (l1 ++ l2) st
  = parse_lines source_url l2 (parse_lines source_url l1 st).
Proof. apply fold_left_app. Qed.

Lemma parse_generated source_url utcnow now records title :
  no_break title -> Forall parsed_record records ->
  parse_m3u (generate_m3u_content utcnow now records title) source_url
  = reparsed_from 8 source_url records.
Proof.
  intros Ht Hr. unfold parse_m3u. rewrite generated_lines by done.
  rewrite enumerate_from_app, parse_lines_app.
  rewrite (parse_other_lines _ (header_lines _ _ _ _)) by apply header_lines_other.
  change (0 + length (header_lines utcnow now title (length records)))%nat with 8%nat.
  by rewrite parse_record_lines.
Qed.

Lemma parse_m3u_parsed_records content source_url :
  Forall parsed_record (parse_m3u content source_url).
Proof.
  destruct (parse_m3u_pairs content source_url) as (pairs & -> & Hp & _).
  apply Forall_forall. intros c Hc.
  apply list_elem_of_In, in_map_iff in Hc as ([i j] & <- & Hin).
  apply Hp in Hin as [(_ & Hm & _) Ht].
  unfold parsed_record. cbn [channel_of raw_extinf url name fst snd].
  split_and!; try apply nth_no_break; try apply strip_strip; try done.
  exists i. apply open_channel_name, nth_no_break.
Qed.

Lemma split_first_In sep s : In sep s -> exists a b, split_first sep s = Some (a, b).
Proof.
  induction s as [|c s IH]; [done|]. intros Hin. simpl.
  destruct (c =? sep) eqn:E; [by eexists _, _|].
  destruct Hin as [->|Hin]; [by rewrite Z.eqb_refl in E|].
  destruct (IH Hin) as (a & b & ->). by eexists _, _.
Qed.

Lemma reparsed_same_fields source_url records : forall k,
  Forall parsed_record records ->
  Forall2 same_fields records (reparsed_from k source_url records).
Proof.
  induction records as [|c records IH]; intros k Hr; [constructor|].
  apply Forall_cons in Hr as [(_ & _ & _ & _ & _ & _ & i & Hname) Hr].
  cbn [reparsed_from]. constructor; [|by apply IH].
  unfold same_fields. cbn [url raw_extinf name]. split; [done|]. split; [done|].
  intros Hc. rewrite Hname. unfold name_after_first_comma.
  by destruct (split_first_In _ _ Hc) as (a & b & ->).
Qed.

(** C4 (amended). For the records the parser gives on any text, and a title
    with no line break in it, re-parsing the text the emitter writes gives,
    record for record, the same locator and the same metadata line, and the
    same name for every record whose metadata line has a comma; the name of
    a record without one is computed anew from the number of its line in
    the emitted text, whose header has 8 lines. *)
Theorem parse_generate_round_trip
  (content source_url source_url' title : pystr) (utcnow now : datetime) :
  no_break title ->
  parse_m3u (generate_m3u_content utcnow now (parse_m3u content source_url) title)
    source_url'
  = reparsed_from 8 source_url' (parse_m3u content source_url) /\
  Forall2 same_fields (parse_m3u content source_url)
    (parse_m3u
       (generate_m3u_content utcnow now (parse_m3u content source_url) title)
       source_url').
Proof.
  intros Ht. pose proof (parse_m3u_parsed_records content source_url) as Hr.
  rewrite parse_generated by done. split; [done|]. by apply reparsed_same_fields.
Qed.

(** Two records with commas in their metadata lines, under a title of [run]. *)
Lemma parse_generate_round_trip_witness :
  Forall2 same_fields (parse_m3u names_with_commas (u "s"))
    (parse_m3u
       (generate_m3u_content some_time some_time
          (parse_m3u names_with_commas (u "s")) (u "原始直播源"))
       (u "t")).
Proof.
  apply (parse_generate_round_trip names_with_commas (u "s") (u "t") (u "原始直播源")
           some_time some_time).
  by apply literal_no_break.
Defined.

(** C4 as stated fails: the record of a metadata line with no comma is
    named [Unknown_0] when parsed and [Unknown_8] when the emitted text is
    parsed again; and a title with line breaks can bring a record of its
    own into the emitted text. *)
Lemma parse_generate_round_trip_counterexample :
  map name (parse_m3u no_comma_playlist (u "s")) = [u "Unknown_0"] /\
  map name
    (parse_m3u
       (generate_m3u_content some_time some_time
          (parse_m3u no_comma_playlist (u "s")) (u "原始直播源"))
       (u "s"))
  = [u "Unknown_8"] /\
  map url
    (parse_m3u
       (generate_m3u_content some_time some_time
          (parse_m3u no_comma_playlist (u "s")) injecting_title)
       (u "s"))
  = [u "http://evil/"; u "http://a/1"].
Proof. repeat split; reflexivity. Qed.

(** * Further properties *)

(** ** More on the parser *)

(** X1. Every record of the parser carries the source it was asked to
    record, a metadata line that starts with [#EXTINF] and a locator that
    starts with one of the four transport prefixes, so is not empty; both
    lines are stripped and hold no line boundary. *)
Theorem parse_m3u_records_well_formed (content source_url : pystr) :
  Forall (fun c =>
            source c = source_url /\
            startswith (raw_extinf c) (u "#EXTINF") = true /\
            startswith_any (url c) transport_prefixes = true /\
            url c <> [] /\
            strip (raw_extinf c) = raw_extinf c /\ strip (url c) = url c /\
            no_break (raw_extinf c) /\ no_break (url c))
    (parse_m3u content source_url).
Proof.
  pose proof (parse_m3u_parsed_records content source_url) as Hr.
  destruct (parse_m3u_pairs content source_url) as (pairs & E & _).
  rewrite Forall_forall in Hr. apply Forall_forall. intros c Hc.
  destruct (Hr c Hc) as (Hnb & Hs & Hm & Hnu & Hsu & Ht & _).
  split_and!; try done.
  - rewrite E in Hc. by apply list_elem_of_In, in_map_iff in Hc as (p & <- & _).
  - intros Hnil. by rewrite Hnil in Ht.
Qed.

Lemma parse_lines_bounds source_url lines : forall st,
  (length (parse_lines source_url lines st).1
   <= length st.1 + length (List.filter is_transport (map snd lines)))%nat /\
  (length (parse_lines source_url lines st).1
   + pending_count (parse_lines source_url lines st).2
   <= length st.1 + pending_count st.2
      + length (List.filter is_metadata (map snd lines)))%nat.
Proof.
  unfold parse_lines. induction lines as [|[i raw] lines IH]; intros [chs cur].
  - simpl. lia.
  - cbn [fold_left map List.filter snd].
    destruct (IH (parse_step source_url (chs, cur) (i, raw))) as [IH1 IH2]. clear IH.
    destruct (is_metadata raw) eqn:Hm; [|destruct (is_transport raw) eqn:Ht].
    + rewrite (meta_not_transport _ Hm).
      rewrite parse_step_meta in IH1, IH2 |- * by done.
      cbn [fst snd length pending_count] in *.
      destruct cur; cbn [pending_count];
        (split; [etrans; [exact IH1|lia] | etrans; [exact IH2|lia]]).
    + rewrite parse_step_transport in IH1, IH2 |- * by done.
      cbn [fst snd] in *.
      destruct cur; cbn [fst snd length pending_count] in *.
      * rewrite length_app in IH1, IH2. cbn [length] in *.
        split; [etrans; [exact IH1|lia] | etrans; [exact IH2|lia]].
      * split; [etrans; [exact IH1|lia] | etrans; [exact IH2|lia]].
    + rewrite parse_step_other in IH1, IH2 |- * by done. by split.
Qed.

Lemma map_snd_enumerate_from {A} (l : list A) : forall k,
  map snd (enumerate_from k l) = l.
Proof. induction l as [|x l IH]; intros k; simpl; by rewrite ?IH. Qed.

(** X2. The parser gives no more records than the text has transport lines,
    and no more than it has metadata lines. *)
Theorem parse_m3u_length_bound (content source_url : pystr) :
  (length (parse_m3u content source_url)
   <= length (List.filter is_transport (splitlines content)))%nat /\
  (length (parse_m3u content source_url)
   <= length (List.filter is_metadata (splitlines content)))%nat.
Proof.
  unfold parse_m3u.
  pose proof (parse_lines_bounds source_url
                (enumerate_from 0 (splitlines content)) ([], None)) as H.
  rewrite map_snd_enumerate_from in H. cbn [fst snd length pending_count] in H.
  lia.
Qed.

(** ** More on deduplication *)

Lemma filter_comm {A} (f g : A -> bool) l :
  List.filter f (List.filter g l) = List.filter g (List.filter f l).
Proof. rewrite !filter_twice. apply filter_ext. intros. apply andb_comm. Qed.

Lemma first_seen_filter (p : channel -> bool) l :
  (forall c d, url c = url d -> p c = p d) ->
  first_seen (List.filter p l) = List.filter p (first_seen l).
Proof.
  intros Hp. induction l as [|c l IH]; [done|]. simpl.
  destruct (p c) eqn:Hc; simpl; rewrite ?Hc, IH.
  - by rewrite filter_comm.
  - rewrite filter_twice. apply filter_ext_in. intros d _.
    unfold has_url. destruct (str_eqb (url d) (url c)) eqn:E; simpl; [|done].
    apply str_eqb_eq in E. by rewrite (Hp d c E), Hc.
Qed.

Lemma first_seen_app a b :
  first_seen (a ++ b)
  = first_seen a ++ List.filter (fun c => negb (url_among a c)) (first_seen b).
Proof.
  induction a as [|c a IH]; simpl.
  - induction (first_seen b); simpl; congruence.
  - rewrite IH, List.filter_app. do 2 f_equal.
    + rewrite filter_twice. apply filter_ext. intros d. unfold url_among. simpl.
      unfold has_url, str_eqb.
      rewrite (bool_decide_ext (url c = url d) (url d = url c)) by done.
      rewrite negb_orb. apply andb_comm.
Qed.

(** X3. Deduplication of two batches of records, one after the other: the
    records that survive are those of the first batch alone, followed by
    those of the second batch alone whose locator is not in the first.  A
    record of an earlier source wins over every later source. *)
Theorem unique_channels_list_app (a b : list channel) :
  unique_channels_list (a ++ b)
  = unique_channels_list a
    ++ List.filter (fun c => negb (url_among a c)) (unique_channels_list b).
Proof. rewrite !unique_channels_list_first_seen. apply first_seen_app. Qed.

Lemma first_seen_NoDup_id l : NoDup (map url l) -> first_seen l = l.
Proof.
  induction l as [|c l IH]; [done|]. intros [Hc Hl]%NoDup_cons. simpl.
  rewrite IH by done. f_equal. apply forallb_filter_id, forallb_forall.
  intros d Hd. unfold has_url. apply negb_true_iff, not_true_iff_false.
  intros E%str_eqb_eq. apply Hc. rewrite <- E.
  apply list_elem_of_fmap. exists d. split; [done|by apply list_elem_of_In].
Qed.

(** X4. Deduplication changes nothing on records whose locators are all
    different, so deduplicating twice is deduplicating once; and it never
    lengthens its input. *)
Theorem unique_channels_list_fixed (l : list channel) :
  (NoDup (map url l) -> unique_channels_list l = l) /\
  unique_channels_list (unique_channels_list l) = unique_channels_list l /\
  (length (unique_channels_list l) <= length l)%nat.
Proof.
  rewrite !unique_channels_list_first_seen. split_and!.
  - apply first_seen_NoDup_id.
  - apply first_seen_NoDup_id, first_seen_NoDup.
  - apply sublist_length, first_seen_sublist.
Qed.

Section MoreKeywordProps.
Context `{CaseTable}.

(** X5. The quality filter works record by record: the filter of two
    batches one after the other is the two filtered batches one after the
    other; filtering twice is filtering once; and the output is never longer
    than the input. *)
Theorem filter_quality_channels_app (a b : list channel) :
  filter_quality_channels (a ++ b)
  = filter_quality_channels a ++ filter_quality_channels b /\
  filter_quality_channels (filter_quality_channels a) = filter_quality_channels a /\
  (length (filter_quality_channels a) <= length a)%nat.
Proof.
  rewrite !filter_quality_channels_filter. split_and!.
  - apply List.filter_app.
  - rewrite filter_twice. apply filter_ext. intros c. by destruct (excluded c).
  - apply sublist_length, filter_sublist.
Qed.

Lemma hongkong_effective_lowered : Forall (fun kw => lower kw = kw) hongkong_effective.
Proof. repeat constructor; by apply lower_literal. Qed.

(** X6. A name gets the label [hongkong] exactly when its lowered text
    holds no keyword of the cctv, satellite and local rules and holds one of
    tvb, viutv, 无线新闻, 翡翠, 明珠: the other four keywords of the hongkong
    rule decide nothing. *)
Theorem categorize_channel_hongkong (channel_name : pystr) :
  categorize_channel channel_name = u "hongkong" <->
  any_in cctv_keywords (lower channel_name) = false /\
  any_in satellite_keywords (lower channel_name) = false /\
  any_in local_keywords (lower channel_name) = false /\
  any_in hongkong_effective (lower channel_name) = true.
Proof.
  unfold categorize_channel. cbv zeta.
  assert (Hhk : any_in satellite_keywords (lower channel_name) = false ->
                any_in hongkong_keywords (lower channel_name)
                = any_in hongkong_effective (lower channel_name)).
  { rewrite any_in_hongkong, <- (matches_set_lowered hongkong_lower)
      by apply hongkong_lower_lowered.
    unfold any_in, satellite_keywords, hongkong_lower, hongkong_effective.
    cbn [existsb]. intros Hs. apply orb_false_iff in Hs as [_ Hs].
    apply orb_false_iff in Hs as [-> _]. btauto. }
  destruct (any_in cctv_keywords (lower channel_name)); [split; [done|by intros []]|].
  destruct (any_in satellite_keywords (lower channel_name));
    [split; [done|by intros (_ & ? & _)]|].
  destruct (any_in local_keywords (lower channel_name));
    [split; [done|by intros (_ & _ & ? & _)]|].
  rewrite Hhk by done.
  destruct (any_in hongkong_effective (lower channel_name)); [done|].
  split; [done|by intros (_ & _ & _ & ?)].
Qed.

End MoreKeywordProps.

(** ** More on the validator *)

Lemma filter_map_comm {A B} (p : B -> bool) (f : A -> B) l :
  List.filter p (map f l) = map f (List.filter (fun x => p (f x)) l).
Proof.
  induction l as [|x l IH]; [done|]. simpl. destruct (p (f x)); simpl; by rewrite IH.
Qed.

Lemma o_valid_outcome_of c r : o_valid (outcome_of c r) = judged_valid r.
Proof. by destruct r as [[]|]. Qed.

Lemma valid_of_flagged channels result order :
  map channel_key (valid_of channels result order)
  = map outcome_key (List.filter o_valid (outcomes_of channels result order)).
Proof.
  unfold valid_of, outcomes_of. rewrite filter_map_comm, !map_map.
  rewrite (filter_ext (fun x => o_valid (outcome_of (nth x channels no_channel) (result x)))
             (fun i => judged_valid (result i)))
    by (intros; apply o_valid_outcome_of).
  apply map_ext. intros i. by rewrite outcome_key_of.
Qed.

(** X7. The valid channels the validator returns are the records of the
    outcomes it flags valid, in the same order; in particular there are as
    many of them as flagged outcomes. *)
Theorem validate_channels_parallel_valid
  (channels : list channel) (result : nat -> future_result) (W : nat)
  (order : list nat) :
  (1 <= W)%nat -> order ≡ₚ seq 0 (length channels) ->
  exists valid outcomes,
    validate_channels_parallel channels result W order = Some (valid, outcomes) /\
    map channel_key valid = map outcome_key (List.filter o_valid outcomes) /\
    length valid = length (List.filter o_valid outcomes).
Proof.
  intros HW Hp.
  destruct (validate_channels_parallel_spec channels result W order HW Hp)
    as (valid & outcomes & Hv & -> & -> & _).
  eexists _, _. split; [exact Hv|].
  pose proof (valid_of_flagged channels result order) as E.
  split; [done|]. apply (f_equal length) in E. by rewrite !length_map in E.
Qed.

Lemma validate_channels_parallel_valid_witness :
  exists valid outcomes,
    validate_channels_parallel two_channels first_raises 2 [1; 0]%nat
    = Some (valid, outcomes) /\
    map channel_key valid = map outcome_key (List.filter o_valid outcomes) /\
    length valid = length (List.filter o_valid outcomes).
Proof.
  apply (validate_channels_parallel_valid two_channels first_raises 2 [1; 0]%nat).
  - lia.
  - apply perm_swap.
Defined.

(** ** More on [run] *)

Section MoreRun.
Context `{CaseTable}.
Variable urlparse : pystr -> parse_result.
Variable network : nat -> request -> response.

(** The state [run] reaches, written out. *)
Lemma run_state_eq all_channels order :
  order ≡ₚ seq 0 (length (filter_quality_channels (unique_channels_list all_channels))) ->
  let quality := filter_quality_channels (unique_channels_list all_channels) in
  let results := probe_results urlparse network quality in
  run urlparse network all_channels order
  = Some {| unique_list := unique_channels_list all_channels;
            quality_channels := quality;
            valid_channels := valid_of quality results order;
            validation_results := outcomes_of quality results order;
            categorized_channels := buckets_of (valid_of quality results order) |}.
Proof.
  intros Hp. cbv zeta. unfold run. cbv zeta.
  set (quality := filter_quality_channels (unique_channels_list all_channels)) in *.
  destruct quality as [|q0 quality'] eqn:Hq.
  - apply Permutation_nil_r in Hp. subst order.
    by rewrite categorize_all_buckets.
  - rewrite <- Hq in *.
    destruct (validate_channels_parallel_spec quality
                (probe_results urlparse network quality) 5 order ltac:(lia) Hp)
      as (valid & results & -> & -> & -> & _).
    by rewrite categorize_all_buckets.
Qed.

Lemma NoDup_filter_bool {A} (p : A -> bool) l : NoDup l -> NoDup (List.filter p l).
Proof. intros Hl. eapply sublist_NoDup; [exact Hl|apply filter_sublist]. Qed.

Lemma NoDup_url_filter (p : channel -> bool) l :
  NoDup (map url l) -> NoDup (map url (List.filter p l)).
Proof.
  intros Hl. eapply sublist_NoDup; [exact Hl|].
  exact (fmap_sublist url _ _ (filter_sublist _ _)).
Qed.

Lemma valid_of_NoDup quality result order :
  NoDup (map url quality) -> order ≡ₚ seq 0 (length quality) ->
  NoDup (map url (valid_of quality result order)).
Proof.
  intros Hq Hp. unfold valid_of. rewrite map_map.
  apply (NoDup_fmap_2_strong (fun i => url (nth i quality no_channel))).
  - intros i j Hi Hj E.
    assert (Hin : forall k, k ∈ List.filter (fun i => judged_valid (result i)) order ->
                            (k < length quality)%nat).
    { intros k Hk%list_elem_of_In%filter_In. destruct Hk as [Hk _].
      apply list_elem_of_In in Hk. rewrite Hp in Hk.
      apply list_elem_of_In, in_seq in Hk. lia. }
    apply Hin in Hi, Hj.
    destruct (lookup_lt_is_Some_2 quality i Hi) as [ci Hci].
    destruct (lookup_lt_is_Some_2 quality j Hj) as [cj Hcj].
    rewrite (nth_lookup_Some _ _ _ _ Hci), (nth_lookup_Some _ _ _ _ Hcj) in E.
    apply (proj1 (NoDup_alt (map url quality)) Hq i j (url ci)).
    + change (map url quality) with (url <$> quality).
      by rewrite list_lookup_fmap, Hci.
    + change (map url quality) with (url <$> quality).
      by rewrite list_lookup_fmap, Hcj, E.
  - apply NoDup_filter_bool. rewrite Hp. apply NoDup_seq.
Qed.

(** X8. No two records share a locator at any stage of [run] after
    deduplication: not in the deduplicated list, not after the quality
    filter, not among the valid channels, and not inside a bucket. *)
Theorem run_locators_distinct (all_channels : list channel) (order : list nat) :
  order ≡ₚ seq 0 (length (filter_quality_channels (unique_channels_list all_channels))) ->
  exists r,
    run urlparse network all_channels order = Some r /\
    NoDup (map url (unique_list r)) /\
    NoDup (map url (quality_channels r)) /\
    NoDup (map url (valid_channels r)) /\
    Forall (fun kv => NoDup (map url kv.2)) (categorized_channels r).
Proof.
  intros Hp. rewrite (run_state_eq _ _ Hp). cbv zeta. eexists. split; [done|].
  cbn [unique_list quality_channels valid_channels categorized_channels].
  assert (Hu : NoDup (map url (unique_channels_list all_channels)))
    by (rewrite unique_channels_list_first_seen; apply first_seen_NoDup).
  assert (Hq : NoDup (map url (filter_quality_channels
                                 (unique_channels_list all_channels))))
    by (rewrite filter_quality_channels_filter; by apply NoDup_url_filter).
  pose proof (valid_of_NoDup _ (probe_results urlparse network
                (filter_quality_channels (unique_channels_list all_channels)))
                _ Hq Hp) as Hv.
  split_and!; try done.
  unfold buckets_of. apply Forall_forall. intros [label chs] Hin.
  apply list_elem_of_In, in_map_iff in Hin as (l & [= <- <-] & _).
  by apply NoDup_url_filter.
Qed.

(** X9. The counts of the summary of [run] never grow along the pipeline:
    valid <= quality-filtered <= deduplicated <= parsed; and there is one
    validation result per quality-filtered channel. *)
Theorem run_counts (all_channels : list channel) (order : list nat) :
  order ≡ₚ seq 0 (length (filter_quality_channels (unique_channels_list all_channels))) ->
  exists r,
    run urlparse network all_channels order = Some r /\
    (length (valid_channels r) <= length (quality_channels r))%nat /\
    (length (quality_channels r) <= length (unique_list r))%nat /\
    (length (unique_list r) <= length all_channels)%nat /\
    length (validation_results r) = length (quality_channels r).
Proof.
  intros Hp. rewrite (run_state_eq _ _ Hp). cbv zeta. eexists. split; [done|].
  cbn [unique_list quality_channels valid_channels validation_results].
  assert (Hlen : length order
                 = length (filter_quality_channels (unique_channels_list all_channels)))
    by by rewrite Hp, length_seq.
  split_and!.
  - unfold valid_of. rewrite length_map, <- Hlen.
    apply sublist_length, filter_sublist.
  - rewrite filter_quality_channels_filter. apply sublist_length, filter_sublist.
  - rewrite unique_channels_list_first_seen. apply sublist_length, first_seen_sublist.
  - unfold outcomes_of. by rewrite length_map.
Qed.

(** X10. In [run] every validation result is the answer of the prober for a
    quality-filtered channel: the futures of the pool never raise, so the
    handler that records a validation exception is never entered. *)
Theorem run_results_probed (all_channels : list channel) (order : list nat) :
  order ≡ₚ seq 0 (length (filter_quality_channels (unique_channels_list all_channels))) ->
  exists r,
    run urlparse network all_channels order = Some r /\
    Forall (fun o => exists i c, quality_channels r !! i = Some c /\
                                 o = probed_outcome urlparse network i c)
      (validation_results r).
Proof.
  intros Hp. rewrite (run_state_eq _ _ Hp). cbv zeta. eexists. split; [done|].
  cbn [quality_channels validation_results].
  set (quality := filter_quality_channels (unique_channels_list all_channels)) in *.
  unfold outcomes_of. apply Forall_forall. intros o Ho.
  apply list_elem_of_In, in_map_iff in Ho as (i & <- & Hi).
  apply list_elem_of_In in Hi. rewrite Hp in Hi. apply list_elem_of_In, in_seq in Hi.
  destruct (lookup_lt_is_Some_2 quality i ltac:(lia)) as [c Hc].
  exists i, c. split; [done|].
  rewrite (nth_lookup_Some _ _ _ _ Hc). unfold probe_results. by rewrite Hc.
Qed.

End MoreRun.

Lemma run_locators_distinct_witness :
  exists r,
    run urlparse_model answers_200 three_channels [1; 0]%nat = Some r /\
    NoDup (map url (unique_list r)) /\
    NoDup (map url (quality_channels r)) /\
    NoDup (map url (valid_channels r)) /\
    Forall (fun kv => NoDup (map url kv.2)) (categorized_channels r).
Proof.
  apply (run_locators_distinct urlparse_model answers_200 three_channels [1; 0]%nat).
  vm_compute. apply perm_swap.
Defined.

Lemma run_counts_witness :
  exists r,
    run urlparse_model answers_200 three_channels [1; 0]%nat = Some r /\
    (length (valid_channels r) <= length (quality_channels r))%nat /\
    (length (quality_channels r) <= length (unique_list r))%nat /\
    (length (unique_list r) <= length three_channels)%nat /\
    length (validation_results r) = length (quality_channels r).
Proof.
  apply (run_counts urlparse_model answers_200 three_channels [1; 0]%nat).
  vm_compute. apply perm_swap.
Defined.

Lemma run_results_probed_witness :
  exists r,
    run urlparse_model answers_200 three_channels [1; 0]%nat = Some r /\
    Forall (fun o => exists i c, quality_channels r !! i = Some c /\
                                 o = probed_outcome urlparse_model answers_200 i c)
      (validation_results r).
Proof.
  apply (run_results_probed urlparse_model answers_200 three_channels [1; 0]%nat).
  vm_compute. apply perm_swap.
Defined.

(** ** More on the emitter *)

Lemma record_lines_length records : length (record_lines records) = (2 * length records)%nat.
Proof. induction records as [|c records IH]; simpl; lia. Qed.

(** X11. The text the emitter writes for records whose two lines hold no
    line boundary, under a title that holds none, has the 8 lines of the
    header followed by the metadata line and the locator line of each
    record, in order: 8 + 2n lines for n records. *)
Theorem generate_m3u_content_lines (utcnow now : datetime)
  (records : list channel) (title : pystr) :
  no_break title -> Forall record_no_break records ->
  splitlines (generate_m3u_content utcnow now records title)
  = header_lines utcnow now title (length records) ++ record_lines records /\
  length (splitlines (generate_m3u_content utcnow now records title))
  = (8 + 2 * length records)%nat.
Proof.
  intros Ht Hr.
  assert (E : splitlines (generate_m3u_content utcnow now records title)
              = header_lines utcnow now title (length records) ++ record_lines records).
  { unfold generate_m3u_content.
    rewrite fold_emit, header_concat, <- concat_app, <- map_app.
    apply splitlines_lines, Forall_app. split; [by apply header_lines_no_break|].
    clear Ht. induction Hr as [|c records [Hc1 Hc2] _ IH]; simpl; [constructor|].
    by repeat constructor. }
  split; [done|]. rewrite E, length_app, record_lines_length. reflexivity.
Qed.

Lemma generate_m3u_content_lines_witness :
  length (splitlines (generate_m3u_content some_time some_time two_channels (u "直播源")))
  = 12%nat.
Proof.
  apply (generate_m3u_content_lines some_time some_time two_channels (u "直播源")).
  - by apply literal_no_break.
  - repeat constructor; by apply literal_no_break.
Defined.

(** ** The playlists [run] writes *)

Lemma reparsed_from_url source_url records : forall k,
  map url (reparsed_from k source_url records) = map url records.
Proof. induction records as [|c records IH]; intros k; simpl; by rewrite ?IH. Qed.

Lemma reparse_urls source_url utcnow now records title :
  no_break title -> Forall parsed_record records ->
  map url (parse_m3u (generate_m3u_content utcnow now records title) source_url)
  = map url records.
Proof. intros Ht Hr. by rewrite parse_generated, reparsed_from_url. Qed.

Lemma Forall_filter_bool {A} (P : A -> Prop) (p : A -> bool) l :
  Forall P l -> Forall P (List.filter p l).
Proof.
  rewrite !Forall_forall. intros Hl x Hx%list_elem_of_In%filter_In.
  apply Hl, list_elem_of_In, Hx.
Qed.


Lemma Forall_sublist_of {A} (P : A -> Prop) l k :
  l `sublist_of` k -> Forall P k -> Forall P l.
Proof.
  intros Hs. rewrite !Forall_forall. intros Hk x Hx. apply Hk.
  by eapply elem_of_sublist.
Qed.

Lemma category_title_no_break label : In label labels -> no_break (label ++ u "频道").
Proof.
  unfold labels. simpl.
  intros [<-|[<-|[<-|[<-|[<-|[]]]]]]; by apply literal_no_break.
Qed.

Section Playlists.
Context `{CaseTable}.
Variable urlparse : pystr -> parse_result.
Variable network : nat -> request -> response.

(** X12. Every playlist [run] writes can be read back: when the records
    come from the parser, parsing the raw playlist, the validated playlist
    and the playlist of every category gives the locators of the records
    that went into it, in the same order. *)
Theorem run_playlists_reparse (channels : list channel) (order : list nat)
  (utcnow now : datetime) (source_url : pystr) :
  order ≡ₚ seq 0 (length (filter_quality_channels (unique_channels_list channels))) ->
  Forall parsed_record channels ->
  exists r,
    run urlparse network channels order = Some r /\
    map url (parse_m3u (generate_m3u_content utcnow now (unique_list r)
                          (u "原始直播源")) source_url)
    = map url (unique_list r) /\
    map url (parse_m3u (generate_m3u_content utcnow now (valid_channels r)
                          (u "已验证直播源")) source_url)
    = map url (valid_channels r) /\
    Forall (fun kv =>
              map url (parse_m3u (generate_m3u_content utcnow now kv.2
                                    (kv.1 ++ u "频道")) source_url)
              = map url kv.2)
      (categorized_channels r).
Proof.
  intros Hp Hall. rewrite (run_state_eq _ _ _ _ Hp). cbv zeta.
  eexists. split; [done|].
  cbn [unique_list valid_channels categorized_channels].
  set (quality := filter_quality_channels (unique_channels_list channels)) in *.
  assert (Hu : Forall parsed_record (unique_channels_list channels)).
  { rewrite unique_channels_list_first_seen.
    eapply Forall_sublist_of; [apply first_seen_sublist|done]. }
  assert (Hq : Forall parsed_record quality).
  { unfold quality. rewrite filter_quality_channels_filter.
    by apply Forall_filter_bool. }
  assert (Hv : Forall parsed_record
                 (valid_of quality (probe_results urlparse network quality) order)).
  { unfold valid_of. apply Forall_forall. intros c Hc.
    apply list_elem_of_In, in_map_iff in Hc as (i & <- & Hi).
    apply filter_In in Hi as [Hi _]. apply list_elem_of_In in Hi.
    rewrite Hp in Hi. apply list_elem_of_In, in_seq in Hi.
    rewrite Forall_forall in Hq. apply Hq, list_elem_of_In, nth_In. lia. }
  split_and!.
  - apply reparse_urls; [by apply literal_no_break|done].
  - apply reparse_urls; [by apply literal_no_break|done].
  - unfold buckets_of. apply Forall_forall. intros [label chs] Hin.
    apply list_elem_of_In, in_map_iff in Hin as (l & [= <- <-] & Hl).
    cbn [fst snd]. apply reparse_urls.
    + by apply category_title_no_break.
    + by apply Forall_filter_bool.
Qed.

End Playlists.

Lemma run_playlists_reparse_witness :
  exists r,
    run urlparse_model answers_200 parsed_example [1; 0]%nat = Some r /\
    map url (parse_m3u (generate_m3u_content some_time some_time (unique_list r)
                          (u "原始直播源")) (u "t"))
    = map url (unique_list r) /\
    map url (parse_m3u (generate_m3u_content some_time some_time (valid_channels r)
                          (u "已验证直播源")) (u "t"))
    = map url (valid_channels r) /\
    Forall (fun kv =>
              map url (parse_m3u (generate_m3u_content some_time some_time kv.2
                                    (kv.1 ++ u "频道")) (u "t"))
              = map url kv.2)
      (categorized_channels r).
Proof.
  apply (run_playlists_reparse urlparse_model answers_200 parsed_example [1; 0]%nat
           some_time some_time (u "t")).
  - vm_compute. apply perm_swap.
  - apply parse_m3u_parsed_records.
Defined.

(** ** The loops over the sources *)

Section GatherProps.
Variable session : nat -> pystr -> Z -> get_result.

Lemma gather_step_fetched st source_url :
  fetched (gather_step session st source_url) = fetched st ++ [source_url].
Proof. unfold gather_step. by destruct (fetch_source _ _ _) as [[|]|]. Qed.

Lemma gather_fold_fetched urls : forall st,
  fetched (fold_left (gather_step session) urls st) = fetched st ++ urls.
Proof.
  induction urls as [|x urls IH]; intros st; simpl; [by rewrite app_nil_r|].
  by rewrite IH, gather_step_fetched, <- app_assoc.
Qed.

Lemma gather_step_gathered st source_url :
  gathered st -> gathered (gather_step session st source_url).
Proof.
  intros (Hall & Hzero & Hle). unfold gather_step, gathered.
  destruct (fetch_source _ _ _) as [[|c text]|];
    cbn [all_channels successful_sources fetched]; rewrite length_app; cbn [length].
  2:{ split_and!; [|done|lia]. apply Forall_app. split.
      - eapply Forall_impl; [exact Hall|]. intros x [Hx ?]. split; [|done].
        apply in_app_iff. by left.
      - pose proof (parse_m3u_parsed_records (c :: text) source_url) as Hp.
        destruct (parse_m3u_pairs (c :: text) source_url) as (pairs & E & _).
        rewrite Forall_forall in Hp. apply Forall_forall. intros x Hx.
        split; [|by apply Hp]. apply in_app_iff. right. left.
        rewrite E in Hx. by apply list_elem_of_In, in_map_iff in Hx as (p & <- & _). }
  all: split_and!; [|done|lia];
    (eapply Forall_impl; [exact Hall|]); intros x [Hx ?]; (split; [|done]);
    apply in_app_iff; by left.
Qed.

Lemma gather_fold_gathered urls : forall st,
  gathered st -> gathered (fold_left (gather_step session) urls st).
Proof.
  induction urls as [|x urls IH]; intros st Hst; [done|].
  simpl. by apply IH, gather_step_gathered.
Qed.

Lemma gather_sources_gathered cfg : gathered (gather_sources session cfg).
Proof.
  assert (Hp : gathered (gather_primary session cfg)).
  { apply gather_fold_gathered. split_and!; [constructor|done|simpl; lia]. }
  unfold gather_sources. cbv zeta.
  destruct (_ && _); [by apply gather_fold_gathered|done].
Qed.

Lemma gather_sources_fetched_eq cfg :
  fetched (gather_sources session cfg)
  = sources cfg
    ++ (if (successful_sources (gather_primary session cfg) =? 0)%nat
        then backup_sources cfg else []).
Proof.
  assert (Hp : fetched (gather_primary session cfg) = sources cfg)
    by apply (gather_fold_fetched (sources cfg)).
  unfold gather_sources. cbv zeta.
  destruct (successful_sources (gather_primary session cfg) =? 0)%nat; cbn [andb].
  - destruct (backup_sources cfg) as [|b bs] eqn:Hb.
    + by rewrite Hp, app_nil_r.
    + by rewrite gather_fold_fetched, Hp.
  - by rewrite Hp, app_nil_r.
Qed.

(** X13. The primary sources are fetched once each, in the order of the
    configuration; the backup sources are fetched after them, in order,
    exactly when no primary source succeeded. *)
Theorem gather_sources_fetched (cfg : sources_config) :
  fetched (gather_sources session cfg)
  = sources cfg
    ++ (if (successful_sources (gather_primary session cfg) =? 0)%nat
        then backup_sources cfg else []).
Proof. apply gather_sources_fetched_eq. Qed.

(** X14. Every record gathered from the sources is a record as the parser
    builds it and names, as its source, a locator that was fetched; when no
    source succeeded there is no record at all; and no more sources succeed
    than were fetched. *)
Theorem gather_sources_records (cfg : sources_config) :
  Forall (fun c => In (source c) (fetched (gather_sources session cfg)) /\
                   parsed_record c)
    (all_channels (gather_sources session cfg)) /\
  (successful_sources (gather_sources session cfg) = 0%nat ->
   all_channels (gather_sources session cfg) = []) /\
  (successful_sources (gather_sources session cfg)
   <= length (fetched (gather_sources session cfg)))%nat.
Proof. apply gather_sources_gathered. Qed.


Lemma gather_fold_failing urls : forall st,
  (forall k url, fetch_source (session k) url 15 = None \/
                 fetch_source (session k) url 15 = Some []) ->
  all_channels (fold_left (gather_step session) urls st) = all_channels st /\
  successful_sources (fold_left (gather_step session) urls st) = successful_sources st.
Proof.
  intros st Hfail. revert st. induction urls as [|x urls IH]; intros st; [done|].
  simpl. destruct (IH (gather_step session st x)) as [-> ->].
  unfold gather_step. by destruct (Hfail (length (fetched st)) x) as [-> | ->].
Qed.

End GatherProps.

(** X15. When every request for a source fails (an exception, a status
    other than 200, or a response with an empty text), every primary and
    every backup source is tried, nothing is gathered, and [run] still ends
    normally, with empty lists and five empty buckets. *)
Theorem gather_sources_all_fail `{CaseTable}
  (session : nat -> pystr -> Z -> get_result) (cfg : sources_config)
  (urlparse : pystr -> parse_result) (network : nat -> request -> response)
  (order : list nat) :
  (forall k url, fetch_source (session k) url 15 = None \/
                 fetch_source (session k) url 15 = Some []) ->
  all_channels (gather_sources session cfg) = [] /\
  successful_sources (gather_sources session cfg) = 0%nat /\
  fetched (gather_sources session cfg) = sources cfg ++ backup_sources cfg /\
  run urlparse network (all_channels (gather_sources session cfg)) order
  = Some empty_run_state.
Proof.
  intros Hfail.
  destruct (gather_fold_failing session (sources cfg)
              {| all_channels := []; successful_sources := 0; fetched := [] |} Hfail)
    as [Hall Hsucc].
  fold (gather_primary session cfg) in Hall, Hsucc. cbn in Hall, Hsucc.
  assert (Hg : all_channels (gather_sources session cfg) = [] /\
               successful_sources (gather_sources session cfg) = 0%nat).
  { unfold gather_sources. cbv zeta. destruct (_ && _); [|done].
    destruct (gather_fold_failing session (backup_sources cfg)
                (gather_primary session cfg) Hfail) as [-> ->]. done. }
  destruct Hg as [Hg1 Hg2]. split_and!; try done.
  - rewrite gather_sources_fetched_eq, Hsucc. done.
  - by rewrite Hg1.
Qed.

Lemma gather_sources_all_fail_witness :
  fetched (gather_sources session_404 example_config)
  = sources example_config ++ backup_sources example_config /\
  run urlparse_model answers_200
    (all_channels (gather_sources session_404 example_config)) []
  = Some empty_run_state.
Proof.
  destruct (gather_sources_all_fail session_404 example_config urlparse_model
              answers_200 []) as (_ & _ & Hf & Hr).
  - intros k url. by left.
  - split; [exact Hf|exact Hr].
Defined.

